(** * Retry and re-authentication control flow of [solution.py]

    A shallow embedding of [try_login], [try_get] and [main] together
    with the properties of the retry loops, of the token that each GET
    presents and of the final logged output.

    The three coroutines talk to one HTTP server and to one logger and
    never run concurrently (every [await] is followed by the use of its
    result), so a run is modelled as a function from the history of the
    session so far to the events it adds and a result.  The [while]
    loops of the source may run forever; their models take a bound
    [fuel] on the number of iterations and answer [OutOfFuel] when it
    is used up. *)

From Stdlib Require Import ZArith List String Bool Lia.
From Stdlib Require Import Floats.SpecFloat.
Import ListNotations.

#[local] Set Warnings "-register-all".
Local Open Scope string_scope.
Local Open Scope Z_scope.
Local Open Scope list_scope.

(** ** Python values *)

(** The values [resp.json()] can produce.  A dictionary is the list of
    its bindings in insertion order; a later binding of a key overrides
    an earlier one. *)
Inductive pyval : Type :=
| PNone
| PBool (b : bool)
| PInt (z : Z)
| PFloat (f : spec_float)
| PStr (s : string)
| PList (l : list pyval)
| PDict (d : list (string * pyval)).

(** Truth value of an object, as [not token] and [not resp] test it. *)
Definition truthy (v : pyval) : bool :=
  match v with
  | PNone => false
  | PBool b => b
  | PInt z => negb (z =? 0)
  | PFloat (S754_zero _) => false
  | PFloat _ => true
  | PStr s => negb (s =? "")%string
  | PList [] => false
  | PList (_ :: _) => true
  | PDict [] => false
  | PDict (_ :: _) => true
  end.

Fixpoint dict_find (d : list (string * pyval)) (key : string) : option pyval :=
  match d with
  | [] => None
  | (k, v) :: rest =>
      match dict_find rest key with
      | Some v' => Some v'
      | None => if (k =? key)%string then Some v else None
      end
  end.

(** [d.get(key)]: the value bound to [key], [None] when there is none. *)
Definition dict_get (d : list (string * pyval)) (key : string) : pyval :=
  match dict_find d key with
  | Some v => v
  | None => PNone
  end.

(** ** The session and the logger *)

Record response : Type := mkResponse {
  status : Z;
  (** the decoded body; [None] when [resp.json()] cannot decode it *)
  payload : option pyval
}.

(** A request of the session.  The [Authorization] header of a GET is
    the f-string [Bearer {token}]; the request keeps the interpolated
    value. *)
Inductive request : Type :=
| POST (url : string) (json : pyval)
| GET (url : string) (token : pyval).

Inductive level : Type := DEBUG | INFO | WARNING | ERROR.

Inductive call : Type :=
| CallLogin
| CallGet (url : string) (token : pyval).

Inductive event : Type :=
(** entry into [try_login] or [try_get]: a ghost event, used to state
    which procedure was invoked and with which arguments *)
| Call (c : call)
(** a request and what came back: a response, or [None] when the
    transport raised *)
| Http (rq : request) (rp : option response)
(** a call of [log.error], [log.warning] or [log.info] with its format
    and arguments *)
| Log (lvl : level) (msg : pyval) (args : list pyval).

Inductive exn : Type := ClientError | JSONError | AttributeError.

Inductive res (A : Type) : Type :=
| Done (a : A)
| Raised (e : exn)
| OutOfFuel.
Arguments Done {A} a.
Arguments Raised {A} e.
Arguments OutOfFuel {A}.

(** A computation reads the history of the run and answers the events
    it adds to it, oldest first, with its result. *)
Definition M (A : Type) : Type := list event -> list event * res A.

Definition ret {A} (a : A) : M A := fun _ => ([], Done a).

Definition bind {A B} (m : M A) (k : A -> M B) : M B :=
  fun h =>
    let (s1, r) := m h in
    match r with
    | Done a => let (s2, r') := k a (h ++ s1) in (s1 ++ s2, r')
    | Raised e => (s1, Raised e)
    | OutOfFuel => (s1, OutOfFuel)
    end.

Definition raise {A} (e : exn) : M A := fun _ => ([], Raised e).
Definition out_of_fuel {A} : M A := fun _ => ([], OutOfFuel).
Definition emit (e : event) : M unit := fun _ => ([e], Done tt).

Declare Scope py_scope.
Delimit Scope py_scope with py.
Notation "x <- m ;; k" := (bind m (fun x => k))
  (at level 100, m at next level, right associativity) : py_scope.
Notation "m ;; k" := (bind m (fun _ => k))
  (at level 100, right associativity) : py_scope.
Local Open Scope py_scope.

Definition log (lvl : level) (fmt : string) (args : list pyval) : M unit :=
  emit (Log lvl (PStr fmt) args).

Definition MAX_RETRIES : Z := 5.

Definition creds : pyval :=
  PDict [("username", PStr "guest"); ("password", PStr "guest")].

Definition login_url : string := "http://localhost:5000/api/login".

Definition secret_urls : list string :=
  [ "http://localhost:5000/api/secret1";
    "http://localhost:5000/api/secret2";
    "http://localhost:5000/api/secret3" ].

(** [resp.json()] *)
Definition resp_json (resp : response) : M pyval :=
  match payload resp with
  | Some v => ret v
  | None => raise JSONError
  end.

(** [body.get(key)]; only a dictionary has the method. *)
Definition py_get (body : pyval) (key : string) : M pyval :=
  match body with
  | PDict d => ret (dict_get d key)
  | _ => raise AttributeError
  end.

Section Program.

(** The server: its answer to a request, given everything that
    happened before. *)
Variable server : list event -> request -> option response.

Definition send (rq : request) : M response :=
  fun h =>
    match server h rq with
    | Some resp => ([Http rq (Some resp)], Done resp)
    | None => ([Http rq None], Raised ClientError)
    end.

Definition session_post (url : string) (json : pyval) : M response :=
  send (POST url json).

Definition session_get (url : string) (token : pyval) : M response :=
  send (GET url token).

(** The [while] loop of [try_login]; [attempts] is the loop's
    counter, which no statement of the body assigns. *)
Fixpoint login_loop (fuel : nat) (attempts : Z) : M pyval :=
  if attempts <? MAX_RETRIES then
    match fuel with
    | O => out_of_fuel
    | S fuel' =>
        resp <- session_post login_url creds ;;
        if status resp =? 200 then
          body <- resp_json resp ;;
          py_get body "access_token"
        else login_loop fuel' attempts
    end
  else
    log ERROR "Too many login attempts %d/%d" [PInt attempts; PInt MAX_RETRIES] ;;
    ret PNone.

(** [try_login(session)]: [attempts = 0], then the loop. *)
Definition try_login (fuel : nat) : M pyval :=
  emit (Call CallLogin) ;;
  login_loop fuel 0.

(** The [while] loop of [try_get]; the assignment to [token] after a
    re-login changes the loop's own variable only. *)
Fixpoint get_loop (fuel : nat) (url : string) (attempts : Z) (token : pyval)
  : M pyval :=
  if attempts <? MAX_RETRIES then
    match fuel with
    | O => out_of_fuel
    | S fuel' =>
        resp <- session_get url token ;;
        if status resp =? 200 then
          body <- resp_json resp ;;
          py_get body "answer"
        else if status resp =? 401 then
          log WARNING "401 Unauthorized, retrying..." [] ;;
          token' <- try_login fuel' ;;
          if negb (truthy token') then
            log ERROR "Error getting new access token" [] ;;
            ret PNone
          else get_loop fuel' url attempts token'
        else get_loop fuel' url attempts token
    end
  else
    log ERROR "Too many login attempts %d/%d" [PInt attempts; PInt MAX_RETRIES] ;;
    ret PNone.

(** [try_get(session, url, token)]: [attempts = 0], then the loop. *)
Definition try_get (fuel : nat) (url : string) (token : pyval) : M pyval :=
  emit (Call (CallGet url token)) ;;
  get_loop fuel url 0 token.

(** The [for url in secret_urls] loop of [main]. *)
Fixpoint fetch_all (fuel : nat) (token : pyval) (urls : list string)
  (answers : list pyval) : M (list pyval) :=
  match urls with
  | [] => ret answers
  | url :: rest =>
      resp <- try_get fuel url token ;;
      if negb (truthy resp) then
        log ERROR "Error getting secret at %s" [PStr url] ;;
        fetch_all fuel token rest answers
      else fetch_all fuel token rest (answers ++ [resp])
  end.

(** The [for answer in answers] loop of [main]. *)
Fixpoint log_answers (answers : list pyval) : M unit :=
  match answers with
  | [] => ret tt
  | answer :: rest => emit (Log INFO answer []) ;; log_answers rest
  end.

(** [main()]: one login, the fetches with the token it returned, then
    the answers at level INFO.  An exception raised inside the [async
    with] block leaves [main] before the answers are logged. *)
Definition main (fuel : nat) : M unit :=
  token <- try_login fuel ;;
  answers <- fetch_all fuel token secret_urls [] ;;
  log_answers answers.

End Program.

(** ** Observations on a trace *)

(** The program's output: the messages logged at level INFO. *)
Fixpoint output (tr : list event) : list pyval :=
  match tr with
  | [] => []
  | Log INFO msg _ :: rest => msg :: output rest
  | _ :: rest => output rest
  end.

(** The GET exchanges of a trace, oldest first. *)
Fixpoint gets (tr : list event) : list (string * pyval * option response) :=
  match tr with
  | [] => []
  | Http (GET url token) rp :: rest => (url, token, rp) :: gets rest
  | _ :: rest => gets rest
  end.

(** The POST exchanges of a trace, oldest first. *)
Fixpoint posts (tr : list event) : list (string * pyval * option response) :=
  match tr with
  | [] => []
  | Http (POST url json) rp :: rest => (url, json, rp) :: posts rest
  | _ :: rest => posts rest
  end.

(** How many times [try_login] was entered. *)
Fixpoint login_calls (tr : list event) : nat :=
  match tr with
  | [] => O
  | Call CallLogin :: rest => S (login_calls rest)
  | _ :: rest => login_calls rest
  end.

(** The arguments of the calls of [try_get], oldest first. *)
Fixpoint get_calls (tr : list event) : list (string * pyval) :=
  match tr with
  | [] => []
  | Call (CallGet url token) :: rest => (url, token) :: get_calls rest
  | _ :: rest => get_calls rest
  end.

(** The messages logged at level ERROR. *)
Fixpoint errors (tr : list event) : list (pyval * list pyval) :=
  match tr with
  | [] => []
  | Log ERROR msg args :: rest => (msg, args) :: errors rest
  | _ :: rest => errors rest
  end.

(** The result of [body = await resp.json(); return body.get(key)]. *)
Definition field_result (key : string) (resp : response) : res pyval :=
  match payload resp with
  | Some (PDict d) => Done (dict_get d key)
  | Some _ => Raised AttributeError
  | None => Raised JSONError
  end.

(** The token that [try_login] returns on an answer to its POST, when
    the answer makes it return one. *)
Definition login_token (rp : option response) : option pyval :=
  match rp with
  | Some resp =>
      if status resp =? 200 then
        match field_result "access_token" resp with
        | Done v => Some v
        | _ => None
        end
      else None
  | None => None
  end.

(** The first and the most recent token that the logins of a trace
    returned, starting from [first] and [latest]. *)
Fixpoint scan (first latest : option pyval) (tr : list event)
  : option pyval * option pyval :=
  match tr with
  | [] => (first, latest)
  | Http (POST _ _) rp :: rest =>
      match login_token rp with
      | Some t =>
          scan (match first with Some _ => first | None => Some t end) (Some t) rest
      | None => scan first latest rest
      end
  | _ :: rest => scan first latest rest
  end.

(** Every GET of the trace presents a token that [P] accepts, given the
    first and the most recent token returned by the logins before it. *)
Fixpoint tokens_follow (P : option pyval -> option pyval -> pyval -> Prop)
  (first latest : option pyval) (tr : list event) : Prop :=
  match tr with
  | [] => True
  | Http (GET _ token) _ :: rest =>
      P first latest token /\ tokens_follow P first latest rest
  | Http (POST _ _) rp :: rest =>
      match login_token rp with
      | Some t =>
          tokens_follow P (match first with Some _ => first | None => Some t end)
            (Some t) rest
      | None => tokens_follow P first latest rest
      end
  | _ :: rest => tokens_follow P first latest rest
  end.

(** The token of the most recent successful login, or null. *)
Definition latest_or_null (first latest : option pyval) (token : pyval) : Prop :=
  latest = Some token \/ token = PNone.

(** The snapshot of [main] and the token that the fetch in progress
    holds, after the events of [tr]: a login that returns a token gives
    it to the fetch in progress, and is the snapshot when it is the
    first; every entry into [try_get] starts again from the snapshot. *)
Fixpoint fetch_scan (snapshot held : option pyval) (tr : list event)
  : option pyval * option pyval :=
  match tr with
  | [] => (snapshot, held)
  | Call (CallGet _ _) :: rest => fetch_scan snapshot snapshot rest
  | Http (POST _ _) rp :: rest =>
      match login_token rp with
      | Some t =>
          fetch_scan (match snapshot with Some _ => snapshot | None => Some t end)
            (Some t) rest
      | None => fetch_scan snapshot held rest
      end
  | _ :: rest => fetch_scan snapshot held rest
  end.

(** Every GET of the trace presents the token that the fetch in progress
    holds: the token returned by the most recent login since the fetch
    was entered, the snapshot when there was none, and null when no
    login has returned at all. *)
Fixpoint tokens_per_fetch (snapshot held : option pyval) (tr : list event) : Prop :=
  match tr with
  | [] => True
  | Call (CallGet _ _) :: rest => tokens_per_fetch snapshot snapshot rest
  | Http (GET _ token) _ :: rest =>
      token = match held with Some t => t | None => PNone end
      /\ tokens_per_fetch snapshot held rest
  | Http (POST _ _) rp :: rest =>
      match login_token rp with
      | Some t =>
          tokens_per_fetch (match snapshot with Some _ => snapshot | None => Some t end)
            (Some t) rest
      | None => tokens_per_fetch snapshot held rest
      end
  | _ :: rest => tokens_per_fetch snapshot held rest
  end.

(** Whether a GET for [url] was already sent. *)
Fixpoint asked (url : string) (h : list event) : bool :=
  match h with
  | [] => false
  | Http (GET u _) _ :: rest => (u =? url)%string || asked url rest
  | _ :: rest => asked url rest
  end.

(** ** What the loops can do *)

Definition warn_401 : event :=
  Log WARNING (PStr "401 Unauthorized, retrying...") [].

Definition error_no_token : event :=
  Log ERROR (PStr "Error getting new access token") [].

(** The traces of the login loop with their results: any number of
    logins answered with another status than 200, then the loop is cut,
    or the transport raises, or a login is answered 200. *)
Inductive login_run : list event -> res pyval -> Prop :=
| login_cut : login_run [] OutOfFuel
| login_transport :
    login_run [Http (POST login_url creds) None] (Raised ClientError)
| login_200 resp :
    status resp = 200 ->
    login_run [Http (POST login_url creds) (Some resp)]
              (field_result "access_token" resp)
| login_again resp s r :
    status resp <> 200 ->
    login_run s r ->
    login_run (Http (POST login_url creds) (Some resp) :: s) r.

(** The traces of the fetch loop for [url], started with [token], with
    their results. *)
Inductive fetch_run (url : string) : pyval -> list event -> res pyval -> Prop :=
| fetch_cut token : fetch_run url token [] OutOfFuel
| fetch_transport token :
    fetch_run url token [Http (GET url token) None] (Raised ClientError)
| fetch_200 token resp :
    status resp = 200 ->
    fetch_run url token [Http (GET url token) (Some resp)] (field_result "answer" resp)
| fetch_other token resp s r :
    status resp <> 200 -> status resp <> 401 ->
    fetch_run url token s r ->
    fetch_run url token (Http (GET url token) (Some resp) :: s) r
| fetch_relogin_cut token resp sl :
    status resp = 401 ->
    login_run sl OutOfFuel ->
    fetch_run url token
      (Http (GET url token) (Some resp) :: warn_401 :: Call CallLogin :: sl) OutOfFuel
| fetch_relogin_raised token resp sl e :
    status resp = 401 ->
    login_run sl (Raised e) ->
    fetch_run url token
      (Http (GET url token) (Some resp) :: warn_401 :: Call CallLogin :: sl) (Raised e)
| fetch_relogin_failed token resp sl token' :
    status resp = 401 ->
    login_run sl (Done token') -> truthy token' = false ->
    fetch_run url token
      (Http (GET url token) (Some resp) :: warn_401 :: Call CallLogin :: sl
         ++ [error_no_token])
      (Done PNone)
| fetch_relogin_ok token resp sl token' s r :
    status resp = 401 ->
    login_run sl (Done token') -> truthy token' = true ->
    fetch_run url token' s r ->
    fetch_run url token
      (Http (GET url token) (Some resp) :: warn_401 :: Call CallLogin :: sl ++ s) r.

(** A server that never answers a login with 200, from history [h] on. *)
Definition never_200 (server : list event -> request -> option response)
  (h : list event) : Prop :=
  forall s, exists resp,
    server (h ++ s) (POST login_url creds) = Some resp /\ status resp <> 200.

(** ** Further observations on a trace *)

(** How many GETs were answered 401. *)
Fixpoint unauthorized (tr : list event) : nat :=
  match tr with
  | [] => O
  | Http (GET _ _) (Some resp) :: rest =>
      if status resp =? 401 then S (unauthorized rest) else unauthorized rest
  | _ :: rest => unauthorized rest
  end.

(** The lines logged at level WARNING. *)
Fixpoint warnings (tr : list event) : list (pyval * list pyval) :=
  match tr with
  | [] => []
  | Log WARNING msg args :: rest => (msg, args) :: warnings rest
  | _ :: rest => warnings rest
  end.

(** The URLs of the GETs of a trace, oldest first. *)
Definition get_urls (tr : list event) : list string :=
  map (fun g => fst (fst g)) (gets tr).

(** The [answer] fields that the GETs answered 200 carried, oldest
    first. *)
Fixpoint answers_200 (tr : list event) : list pyval :=
  match tr with
  | [] => []
  | Http (GET _ _) (Some resp) :: rest =>
      if status resp =? 200 then
        match field_result "answer" resp with
        | Done v => v :: answers_200 rest
        | _ => answers_200 rest
        end
      else answers_200 rest
  | _ :: rest => answers_200 rest
  end.

(** The resources that [main] reported as missing, oldest first. *)
Fixpoint missed (tr : list event) : list pyval :=
  match tr with
  | [] => []
  | Log ERROR (PStr fmt) [url] :: rest =>
      if (fmt =? "Error getting secret at %s")%string then url :: missed rest
      else missed rest
  | _ :: rest => missed rest
  end.

(** The exception that an exchange makes the program raise: the
    transport failed, or the answer is 200 and its body is not a JSON
    object. *)
Definition fatal (e : event) : option exn :=
  match e with
  | Http _ None => Some ClientError
  | Http _ (Some resp) =>
      if status resp =? 200 then
        match payload resp with
        | Some (PDict _) => None
        | Some _ => Some AttributeError
        | None => Some JSONError
        end
      else None
  | _ => None
  end.

(** A computation that ends with the exception of the first fatal
    exchange of its run. *)
Definition fail_fast {A} (m : M A) : Prop :=
  forall h s r pre e post x,
    m h = (s, r) -> s = pre ++ e :: post -> fatal e = Some x ->
    post = [] /\ r = Raised x.

(** The token a GET of a fetch is expected to present: the one returned
    by the most recent login, or the one the fetch was called with. *)
Definition current_token (token : pyval) (first latest : option pyval)
  (presented : pyval) : Prop :=
  presented = match latest with Some t => t | None => token end.

(** The server answers the logins sent from history [h] on with
    [resps], in this order. *)
Fixpoint logins_answered (server : list event -> request -> option response)
  (h : list event) (resps : list response) : Prop :=
  match resps with
  | [] => True
  | resp :: rest =>
      server h (POST login_url creds) = Some resp
      /\ logins_answered server (h ++ [Http (POST login_url creds) (Some resp)]) rest
  end.

(** ** The resolver of the test suite *)

Module FakeResolver.

(** A tested address: host and port. *)
Definition key : Type := string * Z.

Definition key_eqb (a b : key) : bool :=
  (fst a =? fst b)%string && (snd a =? snd b).

(** The dictionary [_servers], as the list of its bindings in insertion
    order. *)
Definition t : Type := list (key * Z).

(** [__init__] *)
Definition init : t := [].

(** [d[k] = v]: a key that is there keeps its place. *)
Fixpoint setitem (d : t) (k : key) (v : Z) : t :=
  match d with
  | [] => [(k, v)]
  | (k', v') :: rest =>
      if key_eqb k' k then (k', v) :: rest else (k', v') :: setitem rest k v
  end.

(** [d[k]]; [None] stands for [KeyError]. *)
Fixpoint getitem (d : t) (k : key) : option Z :=
  match d with
  | [] => None
  | (k', v') :: rest => if key_eqb k' k then Some v' else getitem rest k
  end.

Definition add (self : t) (host : string) (port target_port : Z) : t :=
  setitem self (host, port) target_port.

Record addrinfo : Type := mkAddrinfo {
  hostname : string;
  host : string;
  port : Z;
  proto : Z;
  flags : Z
}.

Inductive outcome : Type :=
| Resolved (addrs : list addrinfo)
| OSError (msg : string).

(** [resolve(host, port)]; [AI_NUMERICHOST] is the constant of the
    [socket] module. *)
Definition resolve (AI_NUMERICHOST : Z) (self : t) (host : string) (port : Z)
  : outcome :=
  match getitem self (host, port) with
  | Some fake_port =>
      Resolved [mkAddrinfo host "127.0.0.1" fake_port 0 AI_NUMERICHOST]
  | None => OSError ("No test server known for " ++ host)%string
  end.

(** The resolver after a sequence of calls of [add], oldest first. *)
Definition after_adds (calls : list (string * Z * Z)) : t :=
  fold_left (fun self c => add self (fst (fst c)) (snd (fst c)) (snd c)) calls init.

(** Whether one of the calls of [add] was for this address. *)
Definition added (calls : list (string * Z * Z)) (k : key) : bool :=
  existsb (fun c => key_eqb (fst c) k) calls.

End FakeResolver.

(** ** Servers used as concrete inputs *)

Definition ok (body : pyval) : option response :=
  Some (mkResponse 200 (Some body)).

Definition refuse (code : Z) : option response :=
  Some (mkResponse code (Some (PDict []))).

Definition secret1 : string := "http://localhost:5000/api/secret1".
Definition secret2 : string := "http://localhost:5000/api/secret2".
Definition secret3 : string := "http://localhost:5000/api/secret3".

(** Every request is answered 500. *)
Definition srv_down (h : list event) (rq : request) : option response :=
  refuse 500.

(** Every login succeeds and every GET is answered 401. *)
Definition srv_expired (h : list event) (rq : request) : option response :=
  match rq with
  | POST _ _ => ok (PDict [("access_token", PStr "T")])
  | GET _ _ => refuse 401
  end.

(** Whether a login request was already sent. *)
Fixpoint has_post (h : list event) : bool :=
  match h with
  | [] => false
  | Http (POST _ _) _ :: _ => true
  | _ :: rest => has_post rest
  end.

(** The first login succeeds with token T1 and every later one is
    answered 500; the first and third resources answer 200 and the
    second always answers 401. *)
Definition srv_second_locked (h : list event) (rq : request) : option response :=
  match rq with
  | POST _ _ =>
      if has_post h then refuse 500 else ok (PDict [("access_token", PStr "T1")])
  | GET url _ =>
      if (url =? secret1)%string then ok (PDict [("answer", PStr "A1")])
      else if (url =? secret2)%string then refuse 401
      else ok (PDict [("answer", PStr "A3")])
  end.

Definition is_token (name : string) (v : pyval) : bool :=
  match v with
  | PStr s => (s =? name)%string
  | _ => false
  end.

(** The first login is answered with token T1 and every later one with
    token T2; a resource answers 200 to a GET that presents T2 and 401
    to any other. *)
Definition srv_rotating (h : list event) (rq : request) : option response :=
  match rq with
  | POST _ _ =>
      if has_post h then ok (PDict [("access_token", PStr "T2")])
      else ok (PDict [("access_token", PStr "T1")])
  | GET url token =>
      if is_token "T2" token then ok (PDict [("answer", PStr url)])
      else refuse 401
  end.

(** Every login is answered with token T1; the first and third
    resources answer with their secrets and the second with an empty
    answer. *)
Definition srv_empty_second (h : list event) (rq : request) : option response :=
  match rq with
  | POST _ _ => ok (PDict [("access_token", PStr "T1")])
  | GET url _ =>
      if (url =? secret1)%string then ok (PDict [("answer", PStr "A1")])
      else if (url =? secret2)%string then ok (PDict [("answer", PStr "")])
      else ok (PDict [("answer", PStr "A3")])
  end.

(** Every login is answered with token T1 and each resource with its
    secret. *)
Definition srv_open (h : list event) (rq : request) : option response :=
  match rq with
  | POST _ _ => ok (PDict [("access_token", PStr "T1")])
  | GET url _ =>
      if (url =? secret1)%string then ok (PDict [("answer", PStr "A1")])
      else if (url =? secret2)%string then ok (PDict [("answer", PStr "A2")])
      else ok (PDict [("answer", PStr "A3")])
  end.

(** The first login is answered with token T1 and every later one with
    an object that has no token; every GET is answered 401. *)
Definition srv_revoked (h : list event) (rq : request) : option response :=
  match rq with
  | POST _ _ =>
      if has_post h then ok (PDict []) else ok (PDict [("access_token", PStr "T1")])
  | GET _ _ => refuse 401
  end.

(** The trace of an initial login answered with token T1. *)
Definition logged_in_T1 : list event :=
  [Call CallLogin;
   Http (POST login_url creds) (ok (PDict [("access_token", PStr "T1")]))].

(** Every login is answered with token T1, the first two resources
    with their secrets, and the transport fails on the third. *)
Definition srv_third_unreachable (h : list event) (rq : request) : option response :=
  match rq with
  | POST _ _ => ok (PDict [("access_token", PStr "T1")])
  | GET url _ =>
      if (url =? secret1)%string then ok (PDict [("answer", PStr "A1")])
      else if (url =? secret2)%string then ok (PDict [("answer", PStr "A2")])
      else None
  end.


(** The first six logins are answered 503 and the later ones with token
    T1. *)
Definition srv_slow (h : list event) (rq : request) : option response :=
  match rq with
  | POST _ _ =>
      if (6 <=? List.length (posts h))%nat
      then ok (PDict [("access_token", PStr "T1")]) else refuse 503
  | GET _ _ => refuse 401
  end.

(** ** Running a computation *)

Lemma bind_done {A B} (m : M A) (k : A -> M B) h s1 a s2 r :
  m h = (s1, Done a) -> k a (h ++ s1) = (s2, r) ->
  bind m k h = (s1 ++ s2, r).
Proof. intros Hm Hk. unfold bind. rewrite Hm, Hk. reflexivity. Qed.

Lemma bind_raised {A B} (m : M A) (k : A -> M B) h s e :
  m h = (s, Raised e) -> bind m k h = (s, Raised e).
Proof. intros Hm. unfold bind. rewrite Hm. reflexivity. Qed.

Lemma bind_out_of_fuel {A B} (m : M A) (k : A -> M B) h s :
  m h = (s, OutOfFuel) -> bind m k h = (s, OutOfFuel).
Proof. intros Hm. unfold bind. rewrite Hm. reflexivity. Qed.

(** How a sequence of two computations can have run. *)
Lemma bind_inv {A B} (m : M A) (k : A -> M B) h s r :
  bind m k h = (s, r) ->
  (exists s1 a s2, m h = (s1, Done a) /\ k a (h ++ s1) = (s2, r) /\ s = s1 ++ s2)
  \/ (exists e, m h = (s, Raised e) /\ r = Raised e)
  \/ (m h = (s, OutOfFuel) /\ r = OutOfFuel).
Proof.
  unfold bind. destruct (m h) as [s1 [a | e | ]] eqn:Hm.
  - destruct (k a (h ++ s1)) as [s2 r'] eqn:Hk. intros H. inversion H; subst.
    left. exists s1, a, s2. auto.
  - intros H. inversion H; subst. right. left. exists e. auto.
  - intros H. inversion H; subst. right. right. auto.
Qed.

Lemma emit_bind {B} e (k : unit -> M B) h :
  bind (emit e) k h = (let (s, r) := k tt (h ++ [e]) in (e :: s, r)).
Proof. reflexivity. Qed.

Section Unfold.
Variable server : list event -> request -> option response.

Lemma login_loop_0 : login_loop server 0 0 = out_of_fuel.
Proof. reflexivity. Qed.

Lemma login_loop_S fuel :
  login_loop server (S fuel) 0 =
  (resp <- session_post server login_url creds ;;
   if status resp =? 200 then
     body <- resp_json resp ;; py_get body "access_token"
   else login_loop server fuel 0).
Proof. reflexivity. Qed.

Lemma get_loop_0 url token : get_loop server 0 url 0 token = out_of_fuel.
Proof. reflexivity. Qed.

Lemma get_loop_S fuel url token :
  get_loop server (S fuel) url 0 token =
  (resp <- session_get server url token ;;
   if status resp =? 200 then
     body <- resp_json resp ;; py_get body "answer"
   else if status resp =? 401 then
     log WARNING "401 Unauthorized, retrying..." [] ;;
     token' <- try_login server fuel ;;
     if negb (truthy token') then
       log ERROR "Error getting new access token" [] ;; ret PNone
     else get_loop server fuel url 0 token'
   else get_loop server fuel url 0 token).
Proof. reflexivity. Qed.

(** What the loops do once the counter has reached [MAX_RETRIES]: the
    branch that the runs from [attempts = 0] never take. *)
Lemma login_loop_exhausted fuel attempts h :
  MAX_RETRIES <= attempts ->
  login_loop server fuel attempts h
  = ([Log ERROR (PStr "Too many login attempts %d/%d")
        [PInt attempts; PInt MAX_RETRIES]],
     Done PNone).
Proof.
  intros Hle. apply Z.ltb_ge in Hle.
  destruct fuel; cbn [login_loop]; rewrite Hle; reflexivity.
Qed.

Lemma get_loop_exhausted fuel url attempts token h :
  MAX_RETRIES <= attempts ->
  get_loop server fuel url attempts token h
  = ([Log ERROR (PStr "Too many login attempts %d/%d")
        [PInt attempts; PInt MAX_RETRIES]],
     Done PNone).
Proof.
  intros Hle. apply Z.ltb_ge in Hle.
  destruct fuel; cbn [get_loop]; rewrite Hle; reflexivity.
Qed.

(** One request that the server answers. *)
Lemma send_some rq h resp :
  server h rq = Some resp -> send server rq h = ([Http rq (Some resp)], Done resp).
Proof. intros H. unfold send. rewrite H. reflexivity. Qed.

End Unfold.

(** ** Observations distribute over concatenation *)

Lemma gets_app a b : gets (a ++ b) = gets a ++ gets b.
Proof.
  induction a as [| [c | [u j | u t] rp | l m args] a IH]; cbn; rewrite ?IH; reflexivity.
Qed.

Lemma posts_app a b : posts (a ++ b) = posts a ++ posts b.
Proof.
  induction a as [| [c | [u j | u t] rp | l m args] a IH]; cbn; rewrite ?IH; reflexivity.
Qed.

Lemma errors_app a b : errors (a ++ b) = errors a ++ errors b.
Proof.
  induction a as [| [c | rq rp | [ | | | ] m args] a IH]; cbn; rewrite ?IH; reflexivity.
Qed.

Lemma output_app a b : output (a ++ b) = output a ++ output b.
Proof.
  induction a as [| [c | rq rp | [ | | | ] m args] a IH]; cbn; rewrite ?IH; reflexivity.
Qed.

Lemma login_calls_app a b : login_calls (a ++ b) = (login_calls a + login_calls b)%nat.
Proof.
  induction a as [| [[ | u t] | rq rp | l m args] a IH]; cbn; rewrite ?IH; reflexivity.
Qed.

Lemma get_calls_app a b : get_calls (a ++ b) = get_calls a ++ get_calls b.
Proof.
  induction a as [| [[ | u t] | rq rp | l m args] a IH]; cbn; rewrite ?IH; reflexivity.
Qed.

Create Rewrite HintDb trace.
#[local] Hint Rewrite gets_app posts_app errors_app output_app login_calls_app
  get_calls_app : trace.

(** ** What a run of the login loop looks like *)

Lemma read_field key resp h :
  (body <- resp_json resp ;; py_get body key) h = ([], field_result key resp).
Proof.
  unfold bind, resp_json, py_get, field_result.
  destruct (payload resp) as [[ | b | z | f | s | l | d] |]; reflexivity.
Qed.

Lemma login_loop_run server fuel :
  forall h s r, login_loop server fuel 0 h = (s, r) -> login_run s r.
Proof.
  induction fuel as [| fuel IH]; intros h s r Hrun.
  - inversion Hrun; subst. constructor.
  - rewrite login_loop_S in Hrun. unfold bind at 1 in Hrun.
    unfold session_post, send in Hrun.
    destruct (server h (POST login_url creds)) as [resp |].
    + destruct (status resp =? 200) eqn:Hst.
      * rewrite read_field in Hrun. inversion Hrun; subst.
        apply login_200. apply Z.eqb_eq. exact Hst.
      * destruct (login_loop server fuel 0 _) as [s' r'] eqn:Hrec.
        inversion Hrun; subst. apply login_again.
        -- apply Z.eqb_neq. exact Hst.
        -- eapply IH. exact Hrec.
    + inversion Hrun; subst. constructor.
Qed.

Lemma try_login_run server fuel h s r :
  try_login server fuel h = (s, r) ->
  exists s', s = Call CallLogin :: s' /\ login_run s' r.
Proof.
  unfold try_login. rewrite emit_bind.
  destruct (login_loop server fuel 0 _) as [s' r'] eqn:Hrec.
  intros H. inversion H; subst. exists s'. split; [reflexivity |].
  eapply login_loop_run. exact Hrec.
Qed.

(** Every request of the login loop is the login POST. *)
Lemma login_run_posts s r :
  login_run s r ->
  forall url json rp, In (url, json, rp) (posts s) -> url = login_url /\ json = creds.
Proof.
  induction 1; cbn; intros url json rp Hin.
  - contradiction.
  - destruct Hin as [Heq | []]. inversion Heq. auto.
  - destruct Hin as [Heq | []]. inversion Heq. auto.
  - destruct Hin as [Heq | Hin]; [inversion Heq; auto | eauto].
Qed.

(** A login answered 200 is the last event of the loop and decides its
    result. *)
Lemma login_run_200 s r :
  login_run s r ->
  forall pre rq resp post,
    s = pre ++ Http rq (Some resp) :: post -> status resp = 200 ->
    post = [] /\ r = field_result "access_token" resp.
Proof.
  induction 1; intros pre rq resp' post Heq Hst.
  - destruct pre; discriminate.
  - destruct pre as [| e [| e' pre]]; discriminate.
  - destruct pre as [| e [| e' pre]]; try discriminate.
    inversion Heq; subst. auto.
  - destruct pre as [| e pre].
    + inversion Heq; subst. contradiction.
    + inversion Heq; subst. eapply IHlogin_run; eauto.
Qed.

Lemma login_run_quiet s r :
  login_run s r ->
  gets s = [] /\ login_calls s = O /\ get_calls s = [] /\ errors s = []
  /\ output s = [].
Proof. induction 1; cbn; auto. Qed.

Lemma try_login_quiet server fuel h s r :
  try_login server fuel h = (s, r) ->
  gets s = [] /\ login_calls s = 1%nat /\ get_calls s = [] /\ errors s = []
  /\ output s = [].
Proof.
  intros Hrun. destruct (try_login_run _ _ _ _ _ Hrun) as [s' [-> Hlr]].
  destruct (login_run_quiet _ _ Hlr) as [Hg [Hc [Hgc [He Ho]]]].
  cbn. rewrite Hg, Hc, Hgc, He, Ho. auto.
Qed.

(** ** What a run of the fetch loop looks like *)

Lemma get_loop_run server fuel url :
  forall token h s r,
    get_loop server fuel url 0 token h = (s, r) -> fetch_run url token s r.
Proof.
  induction fuel as [| fuel IH]; intros token h s r Hrun.
  - inversion Hrun; subst. constructor.
  - rewrite get_loop_S in Hrun. unfold bind at 1 in Hrun.
    unfold session_get, send in Hrun.
    destruct (server h (GET url token)) as [resp |];
      [| inversion Hrun; subst; constructor].
    destruct (status resp =? 200) eqn:H200.
    { rewrite read_field in Hrun. inversion Hrun; subst.
      apply fetch_200. apply Z.eqb_eq. exact H200. }
    apply Z.eqb_neq in H200.
    destruct (status resp =? 401) eqn:H401.
    + apply Z.eqb_eq in H401. unfold log in Hrun. rewrite emit_bind in Hrun.
      match type of Hrun with
      | (let (_, _) := (let (_, _) := ?run in _) in _) = _ =>
          destruct run as [s1 r1] eqn:Hrest
      end.
      inversion Hrun; subst. clear Hrun.
      apply bind_inv in Hrest.
      destruct Hrest as [[sl [token' [s2 [Hl [Hk ->]]]]] | [[e [Hl ->]] | [Hl ->]]].
      * destruct (try_login_run _ _ _ _ _ Hl) as [sl' [-> Hlr]].
        destruct (truthy token') eqn:Ht; cbn [negb] in Hk.
        -- apply fetch_relogin_ok with (token' := token'); auto.
           eapply IH. exact Hk.
        -- inversion Hk; subst.
           apply fetch_relogin_failed with (token' := token'); auto.
      * destruct (try_login_run _ _ _ _ _ Hl) as [sl' [-> Hlr]].
        apply fetch_relogin_raised; auto.
      * destruct (try_login_run _ _ _ _ _ Hl) as [sl' [-> Hlr]].
        apply fetch_relogin_cut; auto.
    + apply Z.eqb_neq in H401.
      destruct (get_loop server fuel url 0 token _) as [s' r'] eqn:Hrec.
      inversion Hrun; subst. apply fetch_other; auto.
      eapply IH. exact Hrec.
Qed.

Lemma try_get_run server fuel url token h s r :
  try_get server fuel url token h = (s, r) ->
  exists s', s = Call (CallGet url token) :: s' /\ fetch_run url token s' r.
Proof.
  unfold try_get. rewrite emit_bind.
  destruct (get_loop server fuel url 0 token _) as [s' r'] eqn:Hrec.
  intros H. inversion H; subst. exists s'. split; [reflexivity |].
  eapply get_loop_run. exact Hrec.
Qed.

(** Where an element of a concatenation lies. *)
Lemma app_eq_mid {A} (l1 l2 pre post : list A) x :
  l1 ++ l2 = pre ++ x :: post ->
  (exists post', l1 = pre ++ x :: post' /\ post = post' ++ l2)
  \/ (exists pre', pre = l1 ++ pre' /\ l2 = pre' ++ x :: post).
Proof.
  revert pre. induction l1 as [| a l1 IH]; intros pre Heq.
  - right. exists pre. auto.
  - destruct pre as [| b pre].
    + inversion Heq; subst. left. exists l1. auto.
    + inversion Heq; subst.
      destruct (IH _ H1) as [[post' [-> ->]] | [pre' [-> ->]]].
      * left. exists post'. auto.
      * right. exists pre'. auto.
Qed.

(** A re-login answered 200 with a token that tests false is followed by
    the error line and nothing else, and the fetch returns [None]. *)
Lemma fetch_run_failed_login url token s r :
  fetch_run url token s r ->
  forall pre u b resp post d,
    s = pre ++ Http (POST u b) (Some resp) :: post ->
    status resp = 200 -> payload resp = Some (PDict d) ->
    truthy (dict_get d "access_token") = false ->
    post = [error_no_token] /\ r = Done PNone.
Proof.
  assert (Hfield : forall resp d, payload resp = Some (PDict d) ->
            field_result "access_token" resp = Done (dict_get d "access_token")).
  { intros resp d Hp. unfold field_result. rewrite Hp. reflexivity. }
  induction 1; intros pre u b resp' post d Heq Hst Hpay Hfalsy.
  - destruct pre; discriminate.
  - destruct pre as [| e [| e' pre]]; discriminate.
  - destruct pre as [| e [| e' pre]]; discriminate.
  - destruct pre as [| e pre]; [discriminate |].
    inversion Heq; subst. eapply IHfetch_run; eauto.
  - destruct pre as [| e1 [| e2 [| e3 pre]]]; try discriminate.
    inversion Heq; subst.
    destruct (login_run_200 _ _ H0 _ _ _ _ eq_refl Hst) as [_ Hr].
    rewrite (Hfield _ _ Hpay) in Hr. discriminate.
  - destruct pre as [| e1 [| e2 [| e3 pre]]]; try discriminate.
    inversion Heq; subst.
    destruct (login_run_200 _ _ H0 _ _ _ _ eq_refl Hst) as [_ Hr].
    rewrite (Hfield _ _ Hpay) in Hr. discriminate.
  - destruct pre as [| e1 [| e2 [| e3 pre]]]; try discriminate.
    inversion Heq as [[He1 He2 He3 Hrest]]. clear Heq.
    apply app_eq_mid in Hrest.
    destruct Hrest as [[post' [Hsl ->]] | [pre' [_ Htail]]].
    + destruct (login_run_200 _ _ H0 _ _ _ _ Hsl Hst) as [-> _]. auto.
    + destruct pre' as [| e [| e' pre']]; discriminate.
  - destruct pre as [| e1 [| e2 [| e3 pre]]]; try discriminate.
    inversion Heq as [[He1 He2 He3 Hrest]]. clear Heq.
    apply app_eq_mid in Hrest.
    destruct Hrest as [[post' [Hsl ->]] | [pre' [_ Htail]]].
    + destruct (login_run_200 _ _ H0 _ _ _ _ Hsl Hst) as [_ Hr].
      rewrite (Hfield _ _ Hpay) in Hr. inversion Hr; subst. congruence.
    + eapply IHfetch_run; eauto.
Qed.

Lemma gets_mid pre u t rp post : gets (pre ++ Http (GET u t) rp :: post) <> [].
Proof. autorewrite with trace. cbn [gets]. destruct (gets pre); discriminate. Qed.

(** A GET answered 200 is the last event of the fetch loop and decides
    its result. *)
Lemma fetch_run_200 url token s r :
  fetch_run url token s r ->
  forall pre u t resp post,
    s = pre ++ Http (GET u t) (Some resp) :: post -> status resp = 200 ->
    post = [] /\ r = field_result "answer" resp.
Proof.
  induction 1; intros pre u t resp' post Heq Hst.
  - destruct pre; discriminate.
  - destruct pre as [| e [| e' pre]]; discriminate.
  - destruct pre as [| e [| e' pre]]; try discriminate.
    inversion Heq; subst. auto.
  - destruct pre as [| e pre].
    + inversion Heq; subst. contradiction.
    + inversion Heq; subst. eapply IHfetch_run; eauto.
  - destruct pre as [| e1 [| e2 [| e3 pre]]]; try discriminate;
      inversion Heq; subst; [congruence |].
    destruct (login_run_quiet _ _ H0) as [Hg _]. destruct (gets_mid _ _ _ _ _ Hg).
  - destruct pre as [| e1 [| e2 [| e3 pre]]]; try discriminate;
      inversion Heq; subst; [congruence |].
    destruct (login_run_quiet _ _ H0) as [Hg _]. destruct (gets_mid _ _ _ _ _ Hg).
  - destruct pre as [| e1 [| e2 [| e3 pre]]]; try discriminate;
      inversion Heq as [[He1 He2 He3 Hrest]]; subst; [congruence |].
    destruct (login_run_quiet _ _ H0) as [Hg _].
    apply app_eq_mid in Hrest.
    destruct Hrest as [[post' [Hsl ->]] | [pre' [_ Htail]]].
    + rewrite Hsl in Hg. destruct (gets_mid _ _ _ _ _ Hg).
    + destruct pre' as [| e [| e' pre']]; discriminate.
  - destruct pre as [| e1 [| e2 [| e3 pre]]]; try discriminate;
      inversion Heq as [[He1 He2 He3 Hrest]]; subst; [congruence |].
    destruct (login_run_quiet _ _ H0) as [Hg _].
    apply app_eq_mid in Hrest.
    destruct Hrest as [[post' [Hsl ->]] | [pre' [_ Htail]]].
    + rewrite Hsl in Hg. destruct (gets_mid _ _ _ _ _ Hg).
    + eapply IHfetch_run; eauto.
Qed.

Lemma fetch_run_get_calls url token s r :
  fetch_run url token s r -> get_calls s = [].
Proof.
  induction 1; cbn [get_calls warn_401]; auto;
    destruct (login_run_quiet _ _ H0) as [_ [_ [Hc _]]];
    autorewrite with trace; rewrite ?Hc; auto.
Qed.

Lemma try_get_get_calls server fuel url token h s r :
  try_get server fuel url token h = (s, r) -> get_calls s = [(url, token)].
Proof.
  intros Hrun. destruct (try_get_run _ _ _ _ _ _ _ Hrun) as [s' [-> Hfr]].
  cbn [get_calls]. rewrite (fetch_run_get_calls _ _ _ _ Hfr). reflexivity.
Qed.

Lemma fetch_all_cons server fuel token url rest answers :
  fetch_all server fuel token (url :: rest) answers =
  (resp <- try_get server fuel url token ;;
   if negb (truthy resp) then
     log ERROR "Error getting secret at %s" [PStr url] ;;
     fetch_all server fuel token rest answers
   else fetch_all server fuel token rest (answers ++ [resp])).
Proof. reflexivity. Qed.

(** ** Runs in which the first answer is 200 *)

Lemma try_login_first_200 server fuel h resp d :
  server (h ++ [Call CallLogin]) (POST login_url creds) = Some resp ->
  status resp = 200 -> payload resp = Some (PDict d) ->
  try_login server (S fuel) h
  = ([Call CallLogin; Http (POST login_url creds) (Some resp)],
     Done (dict_get d "access_token")).
Proof.
  intros Hs Hst Hpay. unfold try_login. rewrite emit_bind, login_loop_S.
  unfold bind at 1, session_post. rewrite (send_some _ _ _ _ Hs).
  rewrite Hst. cbn [Z.eqb Pos.eqb]. rewrite read_field.
  unfold field_result. rewrite Hpay. reflexivity.
Qed.

(** A fetch whose first GET is answered 200 returns the [answer] field
    and does not log in. *)
Lemma try_get_first_200 server fuel url token h resp d :
  server (h ++ [Call (CallGet url token)]) (GET url token) = Some resp ->
  status resp = 200 -> payload resp = Some (PDict d) ->
  try_get server (S fuel) url token h
  = ([Call (CallGet url token); Http (GET url token) (Some resp)],
     Done (dict_get d "answer")).
Proof.
  intros Hs Hst Hpay. unfold try_get. rewrite emit_bind, get_loop_S.
  unfold bind at 1, session_get. rewrite (send_some _ _ _ _ Hs).
  rewrite Hst. cbn [Z.eqb Pos.eqb]. rewrite read_field.
  unfold field_result. rewrite Hpay. reflexivity.
Qed.

Lemma truthy_nonempty s : s <> ""%string -> truthy (PStr s) = true.
Proof.
  intros H. cbn [truthy]. apply String.eqb_neq in H. rewrite H. reflexivity.
Qed.

(** One turn of the loop of [main] for a resource whose fetch returns
    [resp] in one exchange. *)
Lemma fetch_all_step server fuel token url rest answers h seg resp :
  try_get server fuel url token h = (seg, Done resp) ->
  fetch_all server fuel token (url :: rest) answers h =
  if truthy resp then
    let (s, r) := fetch_all server fuel token rest (answers ++ [resp]) (h ++ seg) in
    (seg ++ s, r)
  else
    let miss := Log ERROR (PStr "Error getting secret at %s") [PStr url] in
    let (s, r) := fetch_all server fuel token rest answers (h ++ seg ++ [miss]) in
    (seg ++ miss :: s, r).
Proof.
  intros Hg. rewrite fetch_all_cons. unfold bind at 1. rewrite Hg.
  destruct (truthy resp); cbn [negb].
  - reflexivity.
  - unfold log. rewrite emit_bind. rewrite <- app_assoc.
    destruct (fetch_all server fuel token rest answers _) as [s r]. reflexivity.
Qed.

(** ** More fuel does not change a finished run *)

(** [m2] does what [m1] does whenever [m1] was not cut. *)
Definition extends {A} (m1 m2 : M A) : Prop :=
  forall h s r, m1 h = (s, r) -> r <> OutOfFuel -> m2 h = (s, r).

Lemma extends_refl {A} (m : M A) : extends m m.
Proof. intros h s r H _. exact H. Qed.

Lemma extends_bind {A B} (m1 m2 : M A) (k1 k2 : A -> M B) :
  extends m1 m2 -> (forall a, extends (k1 a) (k2 a)) ->
  extends (bind m1 k1) (bind m2 k2).
Proof.
  intros Hm Hk h s r Hrun Hr. apply bind_inv in Hrun.
  destruct Hrun as [(s1 & a & s2 & H1 & H2 & ->) | [(e & H1 & ->) | (H1 & ->)]].
  - apply bind_done with (a := a).
    + apply Hm; [exact H1 | discriminate].
    + apply Hk; assumption.
  - apply bind_raised. apply Hm; [exact H1 | discriminate].
  - contradiction.
Qed.

Section Fuel.
Variable server : list event -> request -> option response.

Lemma login_loop_more_fuel n :
  forall m, (n <= m)%nat -> extends (login_loop server n 0) (login_loop server m 0).
Proof.
  induction n as [| n IH]; intros m Hle.
  - intros h s r Hrun Hr. inversion Hrun; subst. contradiction.
  - destruct m as [| m]; [lia |]. rewrite !login_loop_S.
    apply extends_bind; [apply extends_refl |].
    intros resp. destruct (status resp =? 200); [apply extends_refl |].
    apply IH. lia.
Qed.

Lemma try_login_more_fuel n m :
  (n <= m)%nat -> extends (try_login server n) (try_login server m).
Proof.
  intros Hle. unfold try_login.
  apply extends_bind; [apply extends_refl |].
  intros _. apply login_loop_more_fuel, Hle.
Qed.

Lemma get_loop_more_fuel url n :
  forall m token, (n <= m)%nat ->
    extends (get_loop server n url 0 token) (get_loop server m url 0 token).
Proof.
  induction n as [| n IH]; intros m token Hle.
  - intros h s r Hrun Hr. inversion Hrun; subst. contradiction.
  - destruct m as [| m]; [lia |]. rewrite !get_loop_S.
    apply extends_bind; [apply extends_refl |].
    intros resp. destruct (status resp =? 200); [apply extends_refl |].
    destruct (status resp =? 401); [| apply IH; lia].
    apply extends_bind; [apply extends_refl |]. intros _.
    apply extends_bind; [apply try_login_more_fuel; lia |].
    intros token'. destruct (negb (truthy token')); [apply extends_refl |].
    apply IH. lia.
Qed.

Lemma try_get_more_fuel url token n m :
  (n <= m)%nat -> extends (try_get server n url token) (try_get server m url token).
Proof.
  intros Hle. unfold try_get.
  apply extends_bind; [apply extends_refl |].
  intros _. apply get_loop_more_fuel, Hle.
Qed.

Lemma fetch_all_more_fuel token n m urls :
  (n <= m)%nat ->
  forall answers,
    extends (fetch_all server n token urls answers)
            (fetch_all server m token urls answers).
Proof.
  intros Hle. induction urls as [| url urls IH]; intros answers.
  - apply extends_refl.
  - rewrite !fetch_all_cons.
    apply extends_bind; [apply try_get_more_fuel, Hle |].
    intros resp. destruct (negb (truthy resp)); [| apply IH].
    apply extends_bind; [apply extends_refl |]. intros _. apply IH.
Qed.

(** A run of [main] that was not cut is the run of [main] for every
    larger fuel. *)
Lemma main_more_fuel n m :
  (n <= m)%nat -> extends (main server n) (main server m).
Proof.
  intros Hle. unfold main.
  apply extends_bind; [apply try_login_more_fuel, Hle |].
  intros token. apply extends_bind; [apply fetch_all_more_fuel, Hle |].
  intros answers. apply extends_refl.
Qed.

End Fuel.

(** ** The error lines that the loops can log *)

Lemma fetch_run_errors url token s r :
  fetch_run url token s r ->
  Forall (fun e => e = (PStr "Error getting new access token", [])) (errors s).
Proof.
  induction 1; cbn [errors warn_401]; auto;
    destruct (login_run_quiet _ _ H0) as [_ [_ [_ [He _]]]];
    autorewrite with trace; rewrite He; cbn [app errors error_no_token]; auto.
Qed.

(** ** The login loop never gives up *)

Lemma never_200_app server h s : never_200 server h -> never_200 server (h ++ s).
Proof.
  intros H s'. destruct (H (s ++ s')) as [resp Hr]. exists resp.
  rewrite <- app_assoc. exact Hr.
Qed.

(** Against such a server the loop uses all the fuel it is given: one
    POST for each unit, no log line and no result. *)
Lemma login_loop_never_200 server fuel :
  forall h, never_200 server h ->
  exists s, login_loop server fuel 0 h = (s, OutOfFuel)
            /\ List.length (posts s) = fuel /\ errors s = [] /\ gets s = []
            /\ login_calls s = O /\ output s = [].
Proof.
  induction fuel as [| fuel IH]; intros h Hn.
  - exists []. repeat split; reflexivity.
  - destruct (Hn []) as [resp [Hs Hst]]. rewrite app_nil_r in Hs.
    destruct (IH (h ++ [Http (POST login_url creds) (Some resp)])
                (never_200_app _ _ _ Hn)) as [s [Hrun [Hp [He [Hg [Hc Ho]]]]]].
    exists (Http (POST login_url creds) (Some resp) :: s).
    split.
    + rewrite login_loop_S.
      apply (bind_done _ _ h [Http (POST login_url creds) (Some resp)] resp s).
      * apply send_some. exact Hs.
      * apply Z.eqb_neq in Hst. rewrite Hst. exact Hrun.
    + cbn [posts errors gets login_calls output List.length].
      rewrite Hp, He, Hg, Hc, Ho. auto 6.
Qed.

Lemma never_200_down h : never_200 srv_down h.
Proof. intros s. exists (mkResponse 500 (Some (PDict []))). split; [reflexivity | discriminate]. Qed.

(** C1. The specification says that when the login endpoint never
    answers 200, [try_login] stops after at most [MAX_RETRIES] attempts,
    returns [None] and logs an error.  The code does not: against the
    server that answers every request with 500, [try_login] sends one
    POST for every unit of fuel, however many, and neither returns nor
    logs; and against no server at all does it log an error. *)
Theorem try_login_never_gives_up :
  (forall fuel h,
     exists s, try_login srv_down fuel h = (s, OutOfFuel)
               /\ List.length (posts s) = fuel /\ errors s = [])
  /\ (forall server fuel h, errors (fst (try_login server fuel h)) = []).
Proof.
  split.
  - intros fuel h.
    destruct (login_loop_never_200 srv_down fuel (h ++ [Call CallLogin])
                (never_200_down _)) as [s [Hrun [Hp [He _]]]].
    exists (Call CallLogin :: s). split.
    + unfold try_login. rewrite emit_bind, Hrun. reflexivity.
    + cbn [posts errors]. auto.
  - intros server fuel h.
    destruct (try_login server fuel h) as [s r] eqn:Hrun.
    destruct (try_login_quiet _ _ _ _ _ Hrun) as [_ [_ [_ [He _]]]]. exact He.
Qed.

(** ** The fetch loop never gives up *)

Lemma get_loop_down fuel url token :
  forall h, exists s, get_loop srv_down fuel url 0 token h = (s, OutOfFuel)
                      /\ List.length (gets s) = fuel /\ errors s = [].
Proof.
  induction fuel as [| fuel IH]; intros h.
  - exists []. repeat split; reflexivity.
  - destruct (IH (h ++ [Http (GET url token) (refuse 500)])) as [s [Hrun [Hg He]]].
    exists (Http (GET url token) (refuse 500) :: s). split.
    + rewrite get_loop_S.
      apply (bind_done _ _ h [Http (GET url token) (refuse 500)]
               (mkResponse 500 (Some (PDict []))) s).
      * reflexivity.
      * exact Hrun.
    + cbn [gets errors List.length]. auto.
Qed.

Lemma get_loop_expired fuel url :
  forall token h, exists s, get_loop srv_expired fuel url 0 token h = (s, OutOfFuel)
                      /\ List.length (gets s) = fuel /\ errors s = [].
Proof.
  induction fuel as [| fuel IH]; intros token h.
  - exists []. repeat split; reflexivity.
  - rewrite get_loop_S. destruct fuel as [| fuel'].
    + eexists. split; [reflexivity | split; reflexivity].
    + set (pre := [Http (GET url token) (refuse 401);
                   Log WARNING (PStr "401 Unauthorized, retrying...") [];
                   Call CallLogin;
                   Http (POST login_url creds) (ok (PDict [("access_token", PStr "T")]))]).
      destruct (IH (PStr "T") (h ++ pre)) as [s [Hrun [Hg He]]].
      exists (pre ++ s). split.
      * unfold bind at 1. unfold session_get, send. cbn [srv_expired refuse].
        cbn [status Z.eqb Pos.eqb]. unfold log. rewrite emit_bind.
        unfold bind at 1. unfold try_login at 1. rewrite emit_bind.
        rewrite login_loop_S. unfold bind at 1.
        unfold session_post, send. cbn [srv_expired ok status Z.eqb Pos.eqb].
        cbn [resp_json payload]. unfold bind at 1. cbn [ret py_get app].
        rewrite <- !app_assoc. cbn [app truthy negb].
        change (dict_get [("access_token", PStr "T")] "access_token") with (PStr "T").
        cbn [truthy negb String.eqb].
        unfold pre, refuse, ok in Hrun |- *. rewrite Hrun. reflexivity.
      * autorewrite with trace. rewrite length_app, Hg, He. split; reflexivity.
Qed.

(** C2. The specification says that one call of [try_get] makes at most
    [MAX_RETRIES] GET attempts, then logs an error and returns [None].
    The code does not: against the server that answers every request
    with 500, and against the one that accepts every login and answers
    every GET with 401, [try_get] sends one GET for every unit of fuel,
    however many, and neither returns nor logs an error; and against no
    server at all does it log another error than that of a failed
    re-login. *)
Theorem try_get_never_gives_up :
  (forall fuel url token h,
     exists s, try_get srv_down fuel url token h = (s, OutOfFuel)
               /\ List.length (gets s) = fuel /\ errors s = [])
  /\ (forall fuel url token h,
        exists s, try_get srv_expired fuel url token h = (s, OutOfFuel)
                  /\ List.length (gets s) = fuel /\ errors s = [])
  /\ (forall server fuel url token h,
        Forall (fun e => e = (PStr "Error getting new access token", []))
               (errors (fst (try_get server fuel url token h)))).
Proof.
  split; [| split].
  - intros fuel url token h.
    destruct (get_loop_down fuel url token (h ++ [Call (CallGet url token)]))
      as [s [Hrun [Hg He]]].
    exists (Call (CallGet url token) :: s). split.
    + unfold try_get. rewrite emit_bind, Hrun. reflexivity.
    + cbn [gets errors]. auto.
  - intros fuel url token h.
    destruct (get_loop_expired fuel url token (h ++ [Call (CallGet url token)]))
      as [s [Hrun [Hg He]]].
    exists (Call (CallGet url token) :: s). split.
    + unfold try_get. rewrite emit_bind, Hrun. reflexivity.
    + cbn [gets errors]. auto.
  - intros server fuel url token h.
    destruct (try_get server fuel url token h) as [s r] eqn:Hrun.
    destruct (try_get_run _ _ _ _ _ _ _ Hrun) as [s' [-> Hfr]].
    cbn [fst errors]. exact (fetch_run_errors _ _ _ _ Hfr).
Qed.

(** ** A fetch whose re-login never succeeds blocks the whole run *)

Lemma has_post_app h s : has_post h = true -> has_post (h ++ s) = true.
Proof.
  induction h as [| [c | [u j | u t] rp | l m args] h IH]; cbn; auto. discriminate.
Qed.

Lemma never_200_second_locked h :
  has_post h = true -> never_200 srv_second_locked h.
Proof.
  intros H s. exists (mkResponse 500 (Some (PDict []))).
  split; [| discriminate].
  cbn [srv_second_locked]. rewrite (has_post_app _ _ H). reflexivity.
Qed.

(** C3. The specification says that when the second resource always
    answers 401 and every re-login fails, the output is the answers of
    the first and third resources.  The code does not get there:
    against such a server the re-login of the second fetch never
    returns, so [main] uses all the fuel it is given, sends one POST for
    every unit and outputs nothing. *)
Theorem main_blocks_on_failed_relogin :
  forall fuel,
    exists s, main srv_second_locked fuel [] = (s, OutOfFuel)
              /\ output s = [] /\ List.length (posts s) = fuel.
Proof.
  intros [| [| fuel]].
  - eexists. split; [reflexivity | split; reflexivity].
  - eexists. split; [reflexivity | split; reflexivity].
  - set (pre := [Call CallLogin;
                 Http (POST login_url creds) (ok (PDict [("access_token", PStr "T1")]));
                 Call (CallGet secret1 (PStr "T1"));
                 Http (GET secret1 (PStr "T1")) (ok (PDict [("answer", PStr "A1")]));
                 Call (CallGet secret2 (PStr "T1"));
                 Http (GET secret2 (PStr "T1")) (refuse 401);
                 Log WARNING (PStr "401 Unauthorized, retrying...") [];
                 Call CallLogin]).
    destruct (login_loop_never_200 srv_second_locked (S fuel) pre
                (never_200_second_locked pre eq_refl)) as [s [Hrun [Hp [He [Hg [Hc Ho]]]]]].
    exists (pre ++ s). split; [| split].
    + unfold main.
      rewrite (bind_done _ _ [] (firstn 2 pre) (PStr "T1") (skipn 2 pre ++ s) OutOfFuel);
        [reflexivity | reflexivity |].
      change secret_urls with [secret1; secret2; secret3].
      apply bind_out_of_fuel. rewrite fetch_all_cons.
      rewrite (bind_done _ _ _ (firstn 2 (skipn 2 pre)) (PStr "A1")
                 (skipn 4 pre ++ s) OutOfFuel); [reflexivity | reflexivity |].
      cbn [truthy negb String.eqb Ascii.eqb Bool.eqb].
      rewrite fetch_all_cons. apply bind_out_of_fuel.
      unfold try_get. rewrite emit_bind. rewrite get_loop_S.
      rewrite (bind_done _ _ _ [Http (GET secret2 (PStr "T1")) (refuse 401)]
                 (mkResponse 401 (Some (PDict []))) (skipn 6 pre ++ s) OutOfFuel);
        [reflexivity | reflexivity |].
      cbn [status Z.eqb Pos.eqb]. unfold log. rewrite emit_bind.
      rewrite (bind_out_of_fuel _ _ _ (Call CallLogin :: s)); [reflexivity |].
      unfold try_login. rewrite emit_bind.
      subst pre. cbn [firstn skipn app] in Hrun |- *. rewrite Hrun. reflexivity.
    + rewrite output_app, Ho. reflexivity.
    + rewrite posts_app, length_app, Hp. reflexivity.
Qed.

(** ** Which token a GET presents *)

Lemma tokens_follow_app P a :
  forall first latest b,
    tokens_follow P first latest (a ++ b) <->
    tokens_follow P first latest a
    /\ tokens_follow P (fst (scan first latest a)) (snd (scan first latest a)) b.
Proof.
  induction a as [| [c | [u j | u t] rp | l m args] a IH]; intros first latest b;
    cbn [app tokens_follow scan fst snd].
  - tauto.
  - apply IH.
  - destruct (login_token rp); apply IH.
  - rewrite IH. tauto.
  - apply IH.
Qed.

Lemma scan_app a :
  forall first latest b,
    scan first latest (a ++ b)
    = scan (fst (scan first latest a)) (snd (scan first latest a)) b.
Proof.
  induction a as [| [c | [u j | u t] rp | l m args] a IH]; intros first latest b;
    cbn [app scan fst snd]; auto.
  destruct (login_token rp); apply IH.
Qed.

Lemma tokens_follow_no_gets P s :
  gets s = [] -> forall first latest, tokens_follow P first latest s.
Proof.
  induction s as [| [c | [u j | u t] rp | l m args] s IH]; cbn; intros Hg first latest;
    auto; try discriminate.
  destruct (login_token rp); auto.
Qed.

(** The login loop changes the tokens seen so far exactly when it
    returns one. *)
Lemma login_run_scan s r :
  login_run s r ->
  forall first latest,
    scan first latest s =
    match r with
    | Done v => (match first with Some _ => first | None => Some v end, Some v)
    | _ => (first, latest)
    end.
Proof.
  induction 1; intros first latest; cbn [scan login_token]; try reflexivity.
  - rewrite H, Z.eqb_refl. destruct (field_result "access_token" resp); reflexivity.
  - apply Z.eqb_neq in H. rewrite H. apply IHlogin_run.
Qed.

Lemma log_answers_quiet answers :
  forall h, gets (fst (log_answers answers h)) = []
            /\ get_calls (fst (log_answers answers h)) = []
            /\ snd (log_answers answers h) = Done tt
            /\ output (fst (log_answers answers h)) = answers.
Proof.
  induction answers as [| a answers IH]; intros h; cbn [log_answers].
  - repeat split; reflexivity.
  - rewrite emit_bind. specialize (IH (h ++ [Log INFO a []])).
    destruct (log_answers answers _) as [s r]. cbn [fst snd gets get_calls output] in *.
    destruct IH as [Hg [Hc [Hr Ho]]]. rewrite Ho. auto.
Qed.

(** C4 as the specification states it: every GET presents the token of
    the most recent successful login, or null.  It fails on the run
    against the server that hands out T1 at the first login and T2 at
    the second, made while fetching the first resource; the fetch of
    the second resource then presents T1, which is neither null nor the
    token of the most recent login. *)
Lemma stale_token_after_refresh :
  ~ tokens_follow latest_or_null None None (fst (main srv_rotating 3 [])).
Proof.
  cbn. unfold latest_or_null. intros H.
  repeat match goal with
         | H : _ /\ _ |- _ => destruct H
         end.
  repeat match goal with
         | H : _ \/ _ |- _ => destruct H; try discriminate
         end.
Qed.

(** ** The token that [main] passes to each fetch *)

Lemma fetch_all_get_calls server fuel token urls :
  forall answers h s r,
    fetch_all server fuel token urls answers h = (s, r) ->
    exists n, get_calls s = map (fun url => (url, token)) (firstn n urls)
              /\ (forall a, r = Done a -> n = List.length urls).
Proof.
  induction urls as [| url urls IH]; intros answers h s r Hrun.
  - inversion Hrun; subst. exists O. auto.
  - rewrite fetch_all_cons in Hrun. apply bind_inv in Hrun.
    destruct Hrun as [(s1 & resp & s2 & Hg & Hk & ->) | [(e & Hg & ->) | (Hg & ->)]];
      pose proof (try_get_get_calls _ _ _ _ _ _ _ Hg) as Hc;
      try (exists 1%nat; split; [exact Hc | discriminate]).
    destruct (negb (truthy resp)).
    + unfold log in Hk. rewrite emit_bind in Hk.
      destruct (fetch_all server fuel token urls answers _) as [s3 r3] eqn:Hrec.
      inversion Hk; subst. destruct (IH _ _ _ _ Hrec) as [n [Hn Hd]].
      exists (S n). rewrite get_calls_app, Hc. cbn [get_calls app firstn map List.length].
      rewrite Hn. split; [reflexivity | intros a Ha; f_equal; eauto].
    + destruct (IH _ _ _ _ Hk) as [n [Hn Hd]].
      exists (S n). rewrite get_calls_app, Hc. cbn [app firstn map List.length].
      rewrite Hn. split; [reflexivity | intros a Ha; f_equal; eauto].
Qed.

(** C5. The trace of [main] is the trace of its one initial
    [try_login] followed by the calls of [try_get], and every one of
    these calls receives the token that the initial [try_login]
    returned, whatever tokens the fetches before it obtained: the calls
    are made for the resources in their order, all three of them when
    [main] returns. *)
Theorem fetches_start_from_snapshot :
  forall server fuel h s0 token,
    try_login server fuel h = (s0, Done token) ->
    exists n rest,
      fst (main server fuel h) = s0 ++ rest
      /\ get_calls rest = map (fun url => (url, token)) (firstn n secret_urls)
      /\ (forall u, snd (main server fuel h) = Done u -> n = 3%nat).
Proof.
  intros server fuel h s0 token Hl.
  destruct (main server fuel h) as [s r] eqn:Hm. cbn [fst snd].
  unfold main in Hm. apply bind_inv in Hm.
  destruct Hm as [(s0' & t & s1 & Hl' & Hrest & ->) | [(e & Hl' & ->) | (Hl' & ->)]];
    rewrite Hl in Hl'; inversion Hl'; subst s0' t. clear Hl'.
  apply bind_inv in Hrest.
  destruct Hrest as [(s2 & answers & s3 & Hf & Hlog & ->) | [(e & Hf & ->) | (Hf & ->)]];
    destruct (fetch_all_get_calls _ _ _ _ _ _ _ _ Hf) as [n [Hn Hd]];
    exists n; eexists; (split; [reflexivity |]);
    try (split; [exact Hn | discriminate]).
  destruct (log_answers_quiet answers ((h ++ s0) ++ s2)) as [_ [Hq _]].
  rewrite Hlog in Hq. cbn [fst] in Hq. rewrite get_calls_app, Hq, app_nil_r.
  split; [exact Hn |].
  intros u _. exact (Hd answers eq_refl).
Qed.

Lemma fetches_start_from_snapshot_witness :
  try_login srv_rotating 3 [] = (logged_in_T1, Done (PStr "T1"))
  /\ exists n rest,
       fst (main srv_rotating 3 []) = logged_in_T1 ++ rest
       /\ get_calls rest = map (fun url => (url, PStr "T1")) (firstn n secret_urls)
       /\ (forall u, snd (main srv_rotating 3 []) = Done u -> n = 3%nat).
Proof.
  split; [reflexivity |].
  exact (fetches_start_from_snapshot srv_rotating 3 [] logged_in_T1 (PStr "T1") eq_refl).
Defined.

(** ** Recovery of a fetch after one 401 *)

(** Read from the trace: when the GET exchanges of a call of [try_get]
    begin with a 401 answer followed by a 200 answer whose body is an
    object, the call entered [try_login] once, after the 401; the second
    GET went to the same URL with the token that this login returned;
    there was no third GET; and the call returned the [answer] field of
    the second answer. *)
Lemma try_get_401_then_200_had_one_relogin :
  forall server fuel url token h s r u1 t1 r1 u2 t2 r2 rest d,
    try_get server fuel url token h = (s, r) ->
    gets s = (u1, t1, Some r1) :: (u2, t2, Some r2) :: rest ->
    status r1 = 401 -> status r2 = 200 -> payload r2 = Some (PDict d) ->
    login_calls s = 1%nat
    /\ rest = [] /\ u2 = url
    /\ r = Done (dict_get d "answer")
    /\ exists fuel' sl,
         try_login server fuel'
           (h ++ [Call (CallGet url token); Http (GET url token) (Some r1); warn_401])
         = (sl, Done t2)
         /\ s = [Call (CallGet url token); Http (GET url token) (Some r1); warn_401]
                ++ sl ++ [Http (GET url t2) (Some r2)].
Proof.
  intros server fuel url token h s r u1 t1 r1 u2 t2 r2 rest d Hrun Hgets H401 H200 Hpay.
  unfold try_get in Hrun. rewrite emit_bind in Hrun.
  destruct (get_loop server fuel url 0 token _) as [s1 rr] eqn:Hloop.
  inversion Hrun; subst s rr. clear Hrun. cbn [gets login_calls] in *.
  destruct fuel as [| fuel]; [inversion Hloop; subst; discriminate |].
  rewrite get_loop_S in Hloop. apply bind_inv in Hloop.
  destruct Hloop as [(sa & resp & sb & Hsend & Hk & ->) | [(e & Hsend & ->) | (Hsend & ->)]];
    unfold session_get, send in Hsend;
    destruct (server _ (GET url token)) as [resp0 |] eqn:Hsrv;
    inversion Hsend; subst; clear Hsend; try discriminate.
  cbn [gets app] in Hgets. inversion Hgets as [[Hu Ht Hr Hgets']]. subst u1 t1 resp.
  clear Hgets.
  rewrite H401 in Hk. cbn [Z.eqb Pos.eqb] in Hk.
  unfold log in Hk. rewrite emit_bind in Hk.
  match type of Hk with
  | (let (_, _) := ?run in _) = _ => destruct run as [s2 rr] eqn:Hrelogin
  end.
  inversion Hk; subst sb rr. clear Hk. cbn [gets] in Hgets'.
  apply bind_inv in Hrelogin.
  destruct Hrelogin as [(sl & token' & s3 & Hl & Hk & ->) | [(e & Hl & ->) | (Hl & ->)]];
    destruct (try_login_quiet _ _ _ _ _ Hl) as [Hg [Hc _]];
    try (rewrite Hg in Hgets'; discriminate).
  rewrite gets_app, Hg in Hgets'. cbn [app] in Hgets'.
  destruct (truthy token') eqn:Htruthy; cbn [negb] in Hk;
    [| inversion Hk; subst; discriminate].
  destruct fuel as [| fuel]; [inversion Hk; subst; discriminate |].
  rewrite get_loop_S in Hk. apply bind_inv in Hk.
  destruct Hk as [(sa & resp & sb & Hsend & Hk & ->) | [(e & Hsend & ->) | (Hsend & ->)]];
    unfold session_get, send in Hsend;
    destruct (server _ (GET url token')) as [resp1 |] eqn:Hsrv';
    inversion Hsend; subst; clear Hsend; try discriminate.
  cbn [gets app] in Hgets'. inversion Hgets' as [[Hu Ht Hr Hrest]]. subst u2 t2 resp.
  rewrite H200 in Hk. cbn [Z.eqb Pos.eqb] in Hk. rewrite read_field in Hk.
  inversion Hk; subst sb r. clear Hk. cbn [gets] in Hrest.
  split; [| split; [| split; [| split]]].
  - cbn [app login_calls]. rewrite login_calls_app, Hc. reflexivity.
  - reflexivity.
  - reflexivity.
  - unfold field_result. rewrite Hpay. reflexivity.
  - exists (S fuel), sl. split.
    + rewrite <- Hl. f_equal. rewrite <- !app_assoc. reflexivity.
    + cbn [app]. reflexivity.
Qed.

(** C6. When the first GET of a call of [try_get] is answered 401, the
    login that follows returns a token that tests true, and the GET that
    presents this token is answered 200 with an object, then the call
    consists of the first GET, the warning, that one call of
    [try_login], and the GET for the same URL with the new token; it
    enters [try_login] once, sends no third GET, and returns the
    [answer] field of the second answer. *)
Theorem try_get_recovers_after_one_relogin :
  forall server n fuel url token h r1 sl t2 r2 d,
    server (h ++ [Call (CallGet url token)]) (GET url token) = Some r1 ->
    status r1 = 401 ->
    try_login server n
      (h ++ [Call (CallGet url token); Http (GET url token) (Some r1); warn_401])
    = (sl, Done t2) ->
    truthy t2 = true ->
    server
      (h ++ [Call (CallGet url token); Http (GET url token) (Some r1); warn_401] ++ sl)
      (GET url t2) = Some r2 ->
    status r2 = 200 -> payload r2 = Some (PDict d) ->
    (n < fuel)%nat ->
    try_get server fuel url token h
    = ([Call (CallGet url token); Http (GET url token) (Some r1); warn_401]
         ++ sl ++ [Http (GET url t2) (Some r2)],
       Done (dict_get d "answer"))
    /\ login_calls
         ([Call (CallGet url token); Http (GET url token) (Some r1); warn_401]
            ++ sl ++ [Http (GET url t2) (Some r2)]) = 1%nat
    /\ gets
         ([Call (CallGet url token); Http (GET url token) (Some r1); warn_401]
            ++ sl ++ [Http (GET url t2) (Some r2)])
       = [(url, token, Some r1); (url, t2, Some r2)].
Proof.
  intros server n fuel url token h r1 sl t2 r2 d Hs1 H401 Hl Ht Hs2 H200 Hpay Hfuel.
  destruct (try_login_quiet _ _ _ _ _ Hl) as [Hg [Hc _]].
  split; [| split].
  - destruct fuel as [| fuel]; [lia |].
    assert (Hl' : try_login server fuel
                    (h ++ [Call (CallGet url token); Http (GET url token) (Some r1);
                           warn_401]) = (sl, Done t2)).
    { apply (try_login_more_fuel server n fuel); [lia | exact Hl | discriminate]. }
    destruct fuel as [| fuel].
    { unfold try_login in Hl'. rewrite emit_bind in Hl'. discriminate. }
    unfold try_get. rewrite emit_bind, get_loop_S.
    rewrite (bind_done _ _ _ [Http (GET url token) (Some r1)] r1
               (warn_401 :: sl ++ [Http (GET url t2) (Some r2)])
               (Done (dict_get d "answer"))); [reflexivity | |].
    + apply send_some. exact Hs1.
    + rewrite H401. cbn [Z.eqb Pos.eqb]. unfold log. rewrite emit_bind.
      rewrite (bind_done _ _ _ sl t2 [Http (GET url t2) (Some r2)]
                 (Done (dict_get d "answer"))); [reflexivity | |].
      * rewrite <- Hl'. f_equal. rewrite <- !app_assoc. reflexivity.
      * rewrite Ht. cbn [negb]. rewrite get_loop_S.
        unfold bind at 1, session_get.
        rewrite (send_some server (GET url t2) _ r2).
        -- rewrite H200. cbn [Z.eqb Pos.eqb]. rewrite read_field.
           unfold field_result. rewrite Hpay. reflexivity.
        -- rewrite <- Hs2. f_equal. rewrite <- !app_assoc. reflexivity.
  - cbn [app login_calls warn_401]. rewrite login_calls_app, Hc. reflexivity.
  - cbn [app gets warn_401]. rewrite gets_app, Hg. reflexivity.
Qed.

Lemma try_get_recovers_after_one_relogin_witness :
  srv_rotating (logged_in_T1 ++ [Call (CallGet secret1 (PStr "T1"))])
    (GET secret1 (PStr "T1")) = refuse 401
  /\ try_login srv_rotating 1
       (logged_in_T1
          ++ [Call (CallGet secret1 (PStr "T1"));
              Http (GET secret1 (PStr "T1")) (refuse 401); warn_401])
     = ([Call CallLogin;
         Http (POST login_url creds) (ok (PDict [("access_token", PStr "T2")]))],
        Done (PStr "T2"))
  /\ try_get srv_rotating 2 secret1 (PStr "T1") logged_in_T1
     = ([Call (CallGet secret1 (PStr "T1"));
         Http (GET secret1 (PStr "T1")) (refuse 401);
         warn_401;
         Call CallLogin;
         Http (POST login_url creds) (ok (PDict [("access_token", PStr "T2")]));
         Http (GET secret1 (PStr "T2")) (ok (PDict [("answer", PStr secret1)]))],
        Done (PStr secret1)).
Proof.
  split; [reflexivity | split; [reflexivity |]].
  destruct (try_get_recovers_after_one_relogin srv_rotating 1 2 secret1 (PStr "T1")
              logged_in_T1 (mkResponse 401 (Some (PDict [])))
              [Call CallLogin;
               Http (POST login_url creds) (ok (PDict [("access_token", PStr "T2")]))]
              (PStr "T2")
              (mkResponse 200 (Some (PDict [("answer", PStr secret1)])))
              [("answer", PStr secret1)]
              eq_refl eq_refl eq_refl eq_refl eq_refl eq_refl eq_refl)
    as [Hrun _]; [lia |].
  exact Hrun.
Defined.

(** ** A re-login that returns no token *)

(** C7. Within a call of [try_get], when a login is answered 200 with an
    [access_token] that is [None] (or any other value that tests false),
    so that [try_login] returns it, the only event that follows is the
    error line: no further request is sent, and [try_get] returns
    [None]. *)
Theorem try_get_stops_when_relogin_fails :
  forall server fuel url token h s r pre u b resp post d,
    try_get server fuel url token h = (s, r) ->
    s = pre ++ Http (POST u b) (Some resp) :: post ->
    status resp = 200 -> payload resp = Some (PDict d) ->
    truthy (dict_get d "access_token") = false ->
    post = [Log ERROR (PStr "Error getting new access token") []]
    /\ gets post = [] /\ posts post = []
    /\ r = Done PNone.
Proof.
  intros server fuel url token h s r pre u b resp post d Hrun Heq Hst Hpay Hf.
  destruct (try_get_run _ _ _ _ _ _ _ Hrun) as [s' [-> Hfr]].
  destruct pre as [| e pre]; [discriminate |].
  inversion Heq as [[He Hs']].
  destruct (fetch_run_failed_login _ _ _ _ Hfr _ _ _ _ _ _ Hs' Hst Hpay Hf) as [-> ->].
  repeat split; reflexivity.
Qed.

Lemma try_get_stops_when_relogin_fails_witness :
  let pre := [Call (CallGet secret1 (PStr "T1"));
              Http (GET secret1 (PStr "T1")) (refuse 401);
              warn_401;
              Call CallLogin] in
  let post := [Log ERROR (PStr "Error getting new access token") []] in
  try_get srv_revoked 2 secret1 (PStr "T1") logged_in_T1
  = (pre ++ Http (POST login_url creds) (ok (PDict [])) :: post, Done PNone)
  /\ truthy (dict_get [] "access_token") = false
  /\ gets post = [] /\ posts post = [].
Proof.
  cbv zeta. split; [reflexivity | split; [reflexivity |]].
  destruct (try_get_stops_when_relogin_fails srv_revoked 2 secret1 (PStr "T1")
              logged_in_T1 _ (Done PNone)
              [Call (CallGet secret1 (PStr "T1"));
               Http (GET secret1 (PStr "T1")) (refuse 401);
               warn_401;
               Call CallLogin]
              login_url creds (mkResponse 200 (Some (PDict [])))
              [Log ERROR (PStr "Error getting new access token") []] []
              eq_refl eq_refl eq_refl eq_refl eq_refl)
    as [_ [Hg [Hp _]]].
  split; [exact Hg | exact Hp].
Defined.

(** ** The login request and its result *)

(** C8. [try_login] sends its requests as POSTs to the login URL with
    the body of the two guest credentials, the first of them as soon as
    it is entered; and a 200 answer whose body is an object ends it at
    once with the value of the [access_token] field, [None] when the
    object has no such field. *)
Theorem try_login_posts_creds_and_returns_token :
  forall server fuel h s r,
    try_login server fuel h = (s, r) ->
    (forall url json rp, In (url, json, rp) (posts s) ->
       url = "http://localhost:5000/api/login"
       /\ json = PDict [("username", PStr "guest"); ("password", PStr "guest")])
    /\ (fuel <> O ->
        exists rp rest, s = Call CallLogin :: Http (POST login_url creds) rp :: rest)
    /\ (forall pre rq resp d post,
          s = pre ++ Http rq (Some resp) :: post ->
          status resp = 200 -> payload resp = Some (PDict d) ->
          post = [] /\ r = Done (dict_get d "access_token")
          /\ (dict_find d "access_token" = None -> r = Done PNone)).
Proof.
  intros server fuel h s r Hrun.
  destruct (try_login_run _ _ _ _ _ Hrun) as [s' [-> Hlr]].
  split; [| split].
  - intros url json rp Hin. cbn [posts] in Hin.
    exact (login_run_posts _ _ Hlr _ _ _ Hin).
  - intros Hfuel. destruct fuel as [| fuel]; [contradiction |].
    unfold try_login in Hrun. rewrite emit_bind, login_loop_S in Hrun.
    unfold bind at 1, session_post, send in Hrun.
    destruct (server _ (POST login_url creds)) as [resp |].
    + destruct (if status resp =? 200 then _ else _) as [s2 r2].
      inversion Hrun; subst. eauto.
    + inversion Hrun; subst. eauto.
  - intros pre rq resp d post Heq Hst Hpay.
    destruct pre as [| e pre]; [discriminate |].
    inversion Heq; subst.
    destruct (login_run_200 _ _ Hlr _ _ _ _ eq_refl Hst) as [-> ->].
    unfold field_result. rewrite Hpay. split; [reflexivity | split; [reflexivity |]].
    intros Hnone. unfold dict_get. rewrite Hnone. reflexivity.
Qed.

Lemma try_login_posts_creds_and_returns_token_witness :
  try_login srv_open 1 [] = (logged_in_T1, Done (PStr "T1"))
  /\ (forall url json rp, In (url, json, rp) (posts logged_in_T1) ->
        url = "http://localhost:5000/api/login"%string
        /\ json = PDict [("username", PStr "guest"); ("password", PStr "guest")])
  /\ Done (PStr "T1") = Done (dict_get [("access_token", PStr "T1")] "access_token").
Proof.
  split; [reflexivity |].
  destruct (try_login_posts_creds_and_returns_token srv_open 1 [] logged_in_T1
              (Done (PStr "T1")) eq_refl) as [Hposts [_ H200]].
  split; [exact Hposts |].
  destruct (H200 [Call CallLogin] (POST login_url creds)
              (mkResponse 200 (Some (PDict [("access_token", PStr "T1")])))
              [("access_token", PStr "T1")] [] eq_refl eq_refl eq_refl)
    as [_ [Hr _]].
  exact Hr.
Defined.

(** ** The output of [main] *)

(** Runs one turn of the loop of [main] with the hypothesis [H] on the
    server's answer to the first GET of the resource. *)
Ltac first_get_200 H :=
  match goal with
  | |- context [fetch_all ?srv (S ?f) ?tok (?url :: ?rest) ?ans ?h] =>
      let Hfirst := fresh "Hfirst" in
      assert (Hfirst : asked url (h ++ [Call (CallGet url tok)]) = false)
        by reflexivity;
      rewrite (fetch_all_step srv (S f) tok url rest ans h _ _
                 (try_get_first_200 srv f url tok h _ _
                    (H _ tok Hfirst) eq_refl eq_refl));
      clear Hfirst;
      match goal with
      | |- context [dict_get [("answer", ?a)] "answer"] =>
          change (dict_get [("answer", a)] "answer") with a
      end
  end.

(** C9. When every login is answered 200 with token T1 and the first GET
    of each of the three resources is answered 200 with the answers A1,
    A2 and A3, none of them empty, [main] returns after one login and
    one GET for each resource, and its output is A1, A2, A3 in this
    order. *)
Theorem main_outputs_all_answers :
  forall server (T1 A1 A2 A3 : string) fuel,
    (forall h, server h (POST login_url creds)
               = ok (PDict [("access_token", PStr T1)])) ->
    (forall h token, asked secret1 h = false ->
       server h (GET secret1 token) = ok (PDict [("answer", PStr A1)])) ->
    (forall h token, asked secret2 h = false ->
       server h (GET secret2 token) = ok (PDict [("answer", PStr A2)])) ->
    (forall h token, asked secret3 h = false ->
       server h (GET secret3 token) = ok (PDict [("answer", PStr A3)])) ->
    A1 <> ""%string -> A2 <> ""%string -> A3 <> ""%string ->
    fuel <> O ->
    main server fuel []
    = ([Call CallLogin;
        Http (POST login_url creds) (ok (PDict [("access_token", PStr T1)]));
        Call (CallGet secret1 (PStr T1));
        Http (GET secret1 (PStr T1)) (ok (PDict [("answer", PStr A1)]));
        Call (CallGet secret2 (PStr T1));
        Http (GET secret2 (PStr T1)) (ok (PDict [("answer", PStr A2)]));
        Call (CallGet secret3 (PStr T1));
        Http (GET secret3 (PStr T1)) (ok (PDict [("answer", PStr A3)]));
        Log INFO (PStr A1) []; Log INFO (PStr A2) []; Log INFO (PStr A3) []],
       Done tt)
    /\ output (fst (main server fuel [])) = [PStr A1; PStr A2; PStr A3].
Proof.
  intros server T1 A1 A2 A3 fuel Hlogin H1 H2 H3 Hne1 Hne2 Hne3 Hfuel.
  destruct fuel as [| fuel]; [contradiction |].
  assert (Hrun : main server (S fuel) []
                 = ([Call CallLogin;
        Http (POST login_url creds) (ok (PDict [("access_token", PStr T1)]));
        Call (CallGet secret1 (PStr T1));
        Http (GET secret1 (PStr T1)) (ok (PDict [("answer", PStr A1)]));
        Call (CallGet secret2 (PStr T1));
        Http (GET secret2 (PStr T1)) (ok (PDict [("answer", PStr A2)]));
        Call (CallGet secret3 (PStr T1));
        Http (GET secret3 (PStr T1)) (ok (PDict [("answer", PStr A3)]));
        Log INFO (PStr A1) []; Log INFO (PStr A2) []; Log INFO (PStr A3) []],
       Done tt)).
  { unfold main, bind at 1.
    rewrite (try_login_first_200 server fuel [] _ _ (Hlogin _) eq_refl eq_refl).
    change (dict_get [("access_token", PStr T1)] "access_token") with (PStr T1).
    change secret_urls with [secret1; secret2; secret3].
    unfold bind at 1.
    first_get_200 H1. rewrite (truthy_nonempty _ Hne1).
    first_get_200 H2. rewrite (truthy_nonempty _ Hne2).
    first_get_200 H3. rewrite (truthy_nonempty _ Hne3).
    reflexivity. }
  rewrite Hrun. split; reflexivity.
Qed.

Lemma main_outputs_all_answers_witness :
  output (fst (main srv_open 1 [])) = [PStr "A1"; PStr "A2"; PStr "A3"]
  /\ snd (main srv_open 1 []) = Done tt.
Proof.
  destruct (main_outputs_all_answers srv_open "T1" "A1" "A2" "A3" 1) as [Hrun Hout].
  - intros h. reflexivity.
  - intros h token _. reflexivity.
  - intros h token _. reflexivity.
  - intros h token _. reflexivity.
  - discriminate.
  - discriminate.
  - discriminate.
  - discriminate.
  - split; [exact Hout | rewrite Hrun; reflexivity].
Defined.

(** C10. When a GET of a fetch is answered 200 with an object whose
    [answer] is the empty string, the fetch ends there and returns the
    empty string; the loop of [main] then logs the error that names the
    resource and goes on to the next resource with the accumulated
    answers unchanged. *)
Theorem empty_answer_is_dropped :
  forall server fuel token url rest answers h seg r pre u t resp post d,
    try_get server fuel url token h = (seg, r) ->
    seg = pre ++ Http (GET u t) (Some resp) :: post ->
    status resp = 200 -> payload resp = Some (PDict d) ->
    dict_get d "answer" = PStr "" ->
    r = Done (PStr "") /\ post = []
    /\ fetch_all server fuel token (url :: rest) answers h
       = (let miss := Log ERROR (PStr "Error getting secret at %s") [PStr url] in
          let (s, r') := fetch_all server fuel token rest answers
                           (h ++ seg ++ [miss]) in
          (seg ++ miss :: s, r')).
Proof.
  intros server fuel token url rest answers h seg r pre u t resp post d
    Hrun Heq Hst Hpay Hempty.
  assert (Hr : post = [] /\ r = Done (PStr "")).
  { destruct (try_get_run _ _ _ _ _ _ _ Hrun) as [s' [Hseg Hfr]].
    rewrite Hseg in Heq. destruct pre as [| e pre]; [discriminate |].
    inversion Heq as [[He Hs']].
    destruct (fetch_run_200 _ _ _ _ Hfr _ _ _ _ _ Hs' Hst) as [Hpost Hres].
    unfold field_result in Hres. rewrite Hpay, Hempty in Hres. auto. }
  destruct Hr as [Hpost Hr]. rewrite Hr in Hrun.
  split; [exact Hr | split; [exact Hpost |]].
  rewrite (fetch_all_step _ _ _ _ _ _ _ _ _ Hrun). reflexivity.
Qed.

Lemma empty_answer_is_dropped_witness :
  let h := logged_in_T1
             ++ [Call (CallGet secret1 (PStr "T1"));
                 Http (GET secret1 (PStr "T1")) (ok (PDict [("answer", PStr "A1")]))] in
  let seg := [Call (CallGet secret2 (PStr "T1"));
              Http (GET secret2 (PStr "T1")) (ok (PDict [("answer", PStr "")]))] in
  let miss := Log ERROR (PStr "Error getting secret at %s") [PStr secret2] in
  try_get srv_empty_second 1 secret2 (PStr "T1") h = (seg, Done (PStr ""))
  /\ fetch_all srv_empty_second 1 (PStr "T1") [secret2; secret3] [PStr "A1"] h
     = (let (s, r) := fetch_all srv_empty_second 1 (PStr "T1") [secret3] [PStr "A1"]
                        (h ++ seg ++ [miss]) in
        (seg ++ miss :: s, r))
  /\ output (fst (main srv_empty_second 1 [])) = [PStr "A1"; PStr "A3"].
Proof.
  cbv zeta. split; [reflexivity |].
  destruct (empty_answer_is_dropped srv_empty_second 1 (PStr "T1") secret2 [secret3]
              [PStr "A1"]
              (logged_in_T1
                 ++ [Call (CallGet secret1 (PStr "T1"));
                     Http (GET secret1 (PStr "T1")) (ok (PDict [("answer", PStr "A1")]))])
              _ (Done (PStr ""))
              [Call (CallGet secret2 (PStr "T1"))] secret2 (PStr "T1")
              (mkResponse 200 (Some (PDict [("answer", PStr "")])))
              [] [("answer", PStr "")]
              eq_refl eq_refl eq_refl eq_refl eq_refl) as [_ [_ Hstep]].
  split; [exact Hstep | reflexivity].
Defined.

(** ** Further observations distribute over concatenation *)

Lemma unauthorized_app a b :
  unauthorized (a ++ b) = (unauthorized a + unauthorized b)%nat.
Proof.
  induction a as [| [c | [u j | u t] [resp |] | l m args] a IH]; cbn; auto.
  destruct (status resp =? 401); cbn; auto.
Qed.

Lemma warnings_app a b : warnings (a ++ b) = warnings a ++ warnings b.
Proof.
  induction a as [| [c | rq rp | [ | | | ] m args] a IH]; cbn; rewrite ?IH; reflexivity.
Qed.

Lemma answers_200_app a b : answers_200 (a ++ b) = answers_200 a ++ answers_200 b.
Proof.
  induction a as [| [c | [u j | u t] [resp |] | l m args] a IH]; cbn; auto.
  destruct (status resp =? 200); auto.
  destruct (field_result "answer" resp); cbn; rewrite ?IH; auto.
Qed.

Lemma missed_app a b : missed (a ++ b) = missed a ++ missed b.
Proof.
  induction a as [| [c | rq rp | [ | | | ] [ | | | | fmt | | ] [| url [| x args]]] a IH];
    cbn; auto.
  destruct (fmt =? "Error getting secret at %s")%string; cbn; rewrite ?IH; auto.
Qed.

Lemma get_urls_app a b : get_urls (a ++ b) = get_urls a ++ get_urls b.
Proof. unfold get_urls. rewrite gets_app, map_app. reflexivity. Qed.

#[local] Hint Rewrite unauthorized_app warnings_app answers_200_app missed_app
  get_urls_app : trace.

(** ** More on the runs of the two loops *)

(** The login loop adds nothing that the further observations see. *)
Lemma login_run_silent s r :
  login_run s r ->
  unauthorized s = O /\ warnings s = [] /\ answers_200 s = [] /\ missed s = []
  /\ get_urls s = [].
Proof. induction 1; cbn; auto. Qed.

(** A login loop that returns ends with a login answered 200 whose body
    is an object, after logins that were all answered otherwise. *)
Lemma login_run_done s v :
  login_run s (Done v) ->
  exists pre resp d,
    s = pre ++ [Http (POST login_url creds) (Some resp)]
    /\ status resp = 200 /\ payload resp = Some (PDict d)
    /\ v = dict_get d "access_token"
    /\ Forall (fun e => exists resp', e = Http (POST login_url creds) (Some resp')
                                      /\ status resp' <> 200) pre.
Proof.
  intros H. remember (Done v) as r eqn:Hr. revert Hr.
  induction H as [| | resp Hst | resp s r Hst Hrun IH]; intros Hr; try discriminate.
  - exists [], resp. unfold field_result in Hr.
    destruct (payload resp) as [[ | b | z | f | str | l | d] |]; try discriminate.
    inversion Hr; subst. exists d. repeat split; auto.
  - destruct (IH Hr) as [pre [resp' [d [-> [H200 [Hpay [Hv Hpre]]]]]]].
    exists (Http (POST login_url creds) (Some resp) :: pre), resp', d.
    repeat split; auto. constructor; eauto.
Qed.

(** A run of the fetch loop that is not empty starts with a GET for the
    resource with the token the loop starts from. *)
Lemma fetch_run_head url token e s r :
  fetch_run url token (e :: s) r -> exists rp, e = Http (GET url token) rp.
Proof. intros H. inversion H; subst; eauto. Qed.

(** Every GET of the fetch loop is for its resource. *)
Lemma fetch_run_get_urls url token s r :
  fetch_run url token s r -> get_urls s = repeat url (List.length (gets s)).
Proof.
  unfold get_urls.
  induction 1; cbn [gets map List.length repeat warn_401 fst]; auto;
    try (rewrite IHfetch_run; reflexivity);
    destruct (login_run_quiet _ _ H0) as [Hg _];
    rewrite ?gets_app, ?Hg; cbn [gets app map List.length repeat error_no_token];
    try reflexivity.
  rewrite IHfetch_run. reflexivity.
Qed.

Lemma fetch_run_no_output url token s r :
  fetch_run url token s r -> output s = [] /\ missed s = [].
Proof.
  induction 1; cbn [output missed warn_401]; auto;
    destruct (login_run_quiet _ _ H0) as [_ [_ [_ [_ Ho]]]];
    destruct (login_run_silent _ _ H0) as [_ [_ [_ [Hm _]]]];
    autorewrite with trace; rewrite Ho, Hm; cbn; auto.
Qed.

(** ** What ends a fetch and what it returns *)

(** X1. In a call of [try_get], a GET answered 200 with an object is for
    the resource of the call, is the last event of the call, and makes
    it return the [answer] field of the object; when it is the first GET
    of the call, nothing but the entry into [try_get] came before it and
    it presents the token of the call. *)
Theorem try_get_returns_answer_on_200 :
  forall server fuel url token h s r pre u t resp post d,
    try_get server fuel url token h = (s, r) ->
    s = pre ++ Http (GET u t) (Some resp) :: post ->
    status resp = 200 -> payload resp = Some (PDict d) ->
    post = [] /\ u = url /\ r = Done (dict_get d "answer")
    /\ (gets pre = [] -> pre = [Call (CallGet url token)] /\ t = token).
Proof.
  intros server fuel url token h s r pre u t resp post d Hrun Heq Hst Hpay.
  destruct (try_get_run _ _ _ _ _ _ _ Hrun) as [s' [-> Hfr]].
  destruct pre as [| e pre]; [discriminate |].
  inversion Heq as [[He Hs']]. subst e.
  destruct (fetch_run_200 _ _ _ _ Hfr _ _ _ _ _ Hs' Hst) as [-> Hr].
  unfold field_result in Hr. rewrite Hpay in Hr.
  split; [reflexivity | split; [| split; [exact Hr |]]].
  - assert (Hin : In u (get_urls s')).
    { rewrite Hs'. unfold get_urls. rewrite gets_app, map_app.
      apply in_or_app. right. left. reflexivity. }
    rewrite (fetch_run_get_urls _ _ _ _ Hfr) in Hin.
    exact (repeat_spec _ _ _ Hin).
  - intros Hg. destruct pre as [| e pre].
    + destruct (fetch_run_head _ _ _ _ _ (eq_ind _ (fun x => fetch_run url token x r) Hfr _ Hs'))
        as [rp Hhead].
      inversion Hhead; subst. auto.
    + rewrite Hs' in Hfr. cbn [app] in Hfr.
      destruct (fetch_run_head _ _ _ _ _ Hfr) as [rp ->]. discriminate.
Qed.

Lemma fetch_run_done url token s v :
  fetch_run url token s (Done v) ->
  (exists pre t resp d,
      s = pre ++ [Http (GET url t) (Some resp)]
      /\ status resp = 200 /\ payload resp = Some (PDict d)
      /\ v = dict_get d "answer")
  \/ (v = PNone
      /\ exists pre resp d,
           s = pre ++ [Http (POST login_url creds) (Some resp); error_no_token]
           /\ status resp = 200 /\ payload resp = Some (PDict d)
           /\ truthy (dict_get d "access_token") = false).
Proof.
  intros H. remember (Done v) as r eqn:Hr. revert Hr.
  induction H; intros Hr; try discriminate.
  - left. exists [], token, resp. unfold field_result in Hr.
    destruct (payload resp) as [[ | b | z | f | str | l | d] |]; try discriminate.
    inversion Hr; subst. exists d. auto.
  - destruct (IHfetch_run Hr)
      as [[pre [t [resp' [d [-> Hrest]]]]] | [Hv [pre [resp' [d [-> Hrest]]]]]].
    + left. exists (Http (GET url token) (Some resp) :: pre), t, resp', d. auto.
    + right. split; [exact Hv |].
      exists (Http (GET url token) (Some resp) :: pre), resp', d. auto.
  - inversion Hr; subst. right. split; [reflexivity |].
    destruct (login_run_done _ _ H0) as [pre [resp' [d [-> [H200 [Hpay [Hv _]]]]]]].
    exists (Http (GET url token) (Some resp) :: warn_401 :: Call CallLogin :: pre),
      resp', d.
    subst token'. rewrite <- app_assoc. auto.
  - destruct (IHfetch_run Hr)
      as [[pre [t [resp' [d [-> Hrest]]]]] | [Hv [pre [resp' [d [-> Hrest]]]]]].
    + left.
      exists (Http (GET url token) (Some resp) :: warn_401 :: Call CallLogin :: sl ++ pre),
        t, resp', d.
      cbn [app]. rewrite <- app_assoc. auto.
    + right. split; [exact Hv |].
      exists (Http (GET url token) (Some resp) :: warn_401 :: Call CallLogin :: sl ++ pre),
        resp', d.
      cbn [app]. rewrite <- app_assoc. auto.
Qed.

(** X2. A call of [try_get] that returns does so in one of two ways: its
    last event is a GET for the resource answered 200 with an object,
    and the result is the [answer] field of that object; or its last two
    events are a login answered 200 with a token that tests false and
    the error line, and the result is [None]. *)
Theorem try_get_result_comes_from_last_exchange :
  forall server fuel url token h s v,
    try_get server fuel url token h = (s, Done v) ->
    (exists pre t resp d,
        s = pre ++ [Http (GET url t) (Some resp)]
        /\ status resp = 200 /\ payload resp = Some (PDict d)
        /\ v = dict_get d "answer")
    \/ (v = PNone
        /\ exists pre resp d,
             s = pre ++ [Http (POST login_url creds) (Some resp);
                         Log ERROR (PStr "Error getting new access token") []]
             /\ status resp = 200 /\ payload resp = Some (PDict d)
             /\ truthy (dict_get d "access_token") = false).
Proof.
  intros server fuel url token h s v Hrun.
  destruct (try_get_run _ _ _ _ _ _ _ Hrun) as [s' [-> Hfr]].
  destruct (fetch_run_done _ _ _ _ Hfr)
    as [[pre [t [resp [d [-> Hrest]]]]] | [Hv [pre [resp [d [-> Hrest]]]]]].
  - left. exists (Call (CallGet url token) :: pre), t, resp, d. auto.
  - right. split; [exact Hv |].
    exists (Call (CallGet url token) :: pre), resp, d. auto.
Qed.

(** X3. A call of [try_login] that returns has sent logins that were all
    answered with another status than 200, then one answered 200 with
    an object, and returns the [access_token] field of that object: it
    never returns on another status, and never logs. *)
Theorem try_login_returns_only_on_200 :
  forall server fuel h s v,
    try_login server fuel h = (s, Done v) ->
    exists pre resp d,
      s = Call CallLogin :: pre ++ [Http (POST login_url creds) (Some resp)]
      /\ status resp = 200 /\ payload resp = Some (PDict d)
      /\ v = dict_get d "access_token"
      /\ Forall (fun e => exists resp', e = Http (POST login_url creds) (Some resp')
                                        /\ status resp' <> 200) pre
      /\ errors s = [] /\ warnings s = [].
Proof.
  intros server fuel h s v Hrun.
  destruct (try_login_run _ _ _ _ _ Hrun) as [s' [-> Hlr]].
  destruct (login_run_quiet _ _ Hlr) as [_ [_ [_ [He _]]]].
  destruct (login_run_silent _ _ Hlr) as [_ [Hw _]].
  destruct (login_run_done _ _ Hlr) as [pre [resp [d [Hs [H200 [Hpay [Hv Hpre]]]]]]].
  exists pre, resp, d. rewrite <- Hs. cbn [errors warnings]. auto 8.
Qed.

(** ** The logins and warnings of a fetch *)

Lemma fetch_run_relogins url token s r :
  fetch_run url token s r ->
  login_calls s = unauthorized s
  /\ warnings s = repeat (PStr "401 Unauthorized, retrying...", []) (unauthorized s).
Proof.
  induction 1; cbn [login_calls unauthorized warnings warn_401 repeat]; auto.
  - rewrite H. cbn. auto.
  - apply Z.eqb_neq in H0. rewrite H0. exact IHfetch_run.
  - rewrite H, Z.eqb_refl.
    destruct (login_run_quiet _ _ H0) as [_ [Hc _]].
    destruct (login_run_silent _ _ H0) as [Hu [Hw _]].
    rewrite Hc, Hu, Hw. auto.
  - rewrite H, Z.eqb_refl.
    destruct (login_run_quiet _ _ H0) as [_ [Hc _]].
    destruct (login_run_silent _ _ H0) as [Hu [Hw _]].
    rewrite Hc, Hu, Hw. auto.
  - rewrite H, Z.eqb_refl.
    destruct (login_run_quiet _ _ H0) as [_ [Hc _]].
    destruct (login_run_silent _ _ H0) as [Hu [Hw _]].
    autorewrite with trace. rewrite Hc, Hu, Hw. cbn. auto.
  - rewrite H, Z.eqb_refl.
    destruct (login_run_quiet _ _ H0) as [_ [Hc _]].
    destruct (login_run_silent _ _ H0) as [Hu [Hw _]].
    destruct IHfetch_run as [IHc IHw].
    autorewrite with trace. rewrite Hc, Hu, Hw, IHc, IHw. cbn. auto.
Qed.

(** X4. In every run of [try_get], cut or not, the number of entries
    into [try_login] is the number of GETs answered 401, and so is the
    number of warning lines, which all read the same: every 401 is
    followed by one warning and one re-login, and nothing else is. *)
Theorem try_get_relogins_once_per_401 :
  forall server fuel url token h,
    let s := fst (try_get server fuel url token h) in
    login_calls s = unauthorized s
    /\ warnings s = repeat (PStr "401 Unauthorized, retrying...", []) (unauthorized s).
Proof.
  intros server fuel url token h.
  destruct (try_get server fuel url token h) as [s r] eqn:Hrun. cbn [fst].
  destruct (try_get_run _ _ _ _ _ _ _ Hrun) as [s' [-> Hfr]].
  cbn [login_calls unauthorized warnings]. exact (fetch_run_relogins _ _ _ _ Hfr).
Qed.

(** ** The token of each GET of one fetch *)

Lemma fetch_run_current_token token0 url token s r :
  fetch_run url token s r ->
  forall first latest,
    token = match latest with Some t => t | None => token0 end ->
    tokens_follow (current_token token0) first latest s.
Proof.
  induction 1; intros first latest Htok; cbn [tokens_follow warn_401];
    try (split; [exact Htok |]); auto;
    destruct (login_run_quiet _ _ H0) as [Hg _].
  - apply tokens_follow_no_gets. exact Hg.
  - apply tokens_follow_no_gets. exact Hg.
  - apply tokens_follow_no_gets. rewrite gets_app, Hg. reflexivity.
  - apply tokens_follow_app.
    split; [apply tokens_follow_no_gets; exact Hg |].
    rewrite (login_run_scan _ _ H0). cbn [fst snd]. apply IHfetch_run. reflexivity.
Qed.

(** X5. In every run of [try_get], each GET presents the token that the
    most recent login of this call returned, and the token the call was
    given when no login of this call has returned yet. *)
Theorem try_get_presents_current_token :
  forall server fuel url token h,
    tokens_follow (current_token token) None None
      (fst (try_get server fuel url token h)).
Proof.
  intros server fuel url token h.
  destruct (try_get server fuel url token h) as [s r] eqn:Hrun. cbn [fst].
  destruct (try_get_run _ _ _ _ _ _ _ Hrun) as [s' [-> Hfr]].
  cbn [tokens_follow]. apply (fetch_run_current_token token _ _ _ _ Hfr). reflexivity.
Qed.

(** ** The token of each GET of a run of [main] *)

Lemma tokens_per_fetch_app a :
  forall snapshot held b,
    tokens_per_fetch snapshot held (a ++ b) <->
    tokens_per_fetch snapshot held a
    /\ tokens_per_fetch (fst (fetch_scan snapshot held a))
         (snd (fetch_scan snapshot held a)) b.
Proof.
  induction a as [| [[ | u t] | [u j | u t] rp | l m args] a IH];
    intros snapshot held b; cbn [app tokens_per_fetch fetch_scan fst snd].
  - tauto.
  - apply IH.
  - apply IH.
  - destruct (login_token rp); apply IH.
  - rewrite IH. tauto.
  - apply IH.
Qed.

Lemma fetch_scan_app a :
  forall snapshot held b,
    fetch_scan snapshot held (a ++ b)
    = fetch_scan (fst (fetch_scan snapshot held a)) (snd (fetch_scan snapshot held a)) b.
Proof.
  induction a as [| [[ | u t] | [u j | u t] rp | l m args] a IH];
    intros snapshot held b; cbn [app fetch_scan fst snd]; auto.
  destruct (login_token rp); apply IH.
Qed.

(** On a trace that enters no fetch, the fetch in progress holds the
    most recent token. *)
Lemma tokens_per_fetch_inside s :
  get_calls s = [] ->
  forall snapshot held,
    fetch_scan snapshot held s = scan snapshot held s
    /\ (tokens_follow (current_token PNone) snapshot held s ->
        tokens_per_fetch snapshot held s).
Proof.
  induction s as [| [[ | u t] | [u j | u t] rp | l m args] s IH];
    cbn [get_calls fetch_scan scan tokens_follow tokens_per_fetch];
    intros Hc snapshot held; auto; try discriminate.
  - destruct (login_token rp); auto.
  - destruct (IH Hc snapshot held) as [Hs Ht]. split; [exact Hs |].
    intros [Htok Hrest]. split; [exact Htok | auto].
Qed.

Lemma scan_keeps_first s :
  forall t0 latest, fst (scan (Some t0) latest s) = Some t0.
Proof.
  induction s as [| [c | [u j | u t] rp | l m args] s IH]; intros t0 latest;
    cbn [scan fst]; auto.
  destruct (login_token rp); auto.
Qed.

(** A fetch that [main] enters with its snapshot. *)
Lemma try_get_tokens_per_fetch server fuel url t0 h s r :
  try_get server fuel url t0 h = (s, r) ->
  forall held,
    tokens_per_fetch (Some t0) held s
    /\ fst (fetch_scan (Some t0) held s) = Some t0.
Proof.
  intros Hrun held. destruct (try_get_run _ _ _ _ _ _ _ Hrun) as [s' [-> Hfr]].
  cbn [tokens_per_fetch fetch_scan].
  destruct (tokens_per_fetch_inside s' (fetch_run_get_calls _ _ _ _ Hfr)
              (Some t0) (Some t0)) as [Hs Ht].
  split.
  - apply Ht. apply (fetch_run_current_token PNone _ _ _ _ Hfr). reflexivity.
  - rewrite Hs. apply scan_keeps_first.
Qed.

Lemma fetch_all_tokens_per_fetch server fuel t0 urls :
  forall answers h s r held,
    fetch_all server fuel t0 urls answers h = (s, r) ->
    tokens_per_fetch (Some t0) held s.
Proof.
  induction urls as [| url urls IH]; intros answers h s r held Hrun.
  - inversion Hrun; subst. exact I.
  - rewrite fetch_all_cons in Hrun. apply bind_inv in Hrun.
    destruct Hrun as [(s1 & resp & s2 & Hg & Hk & ->) | [(e & Hg & ->) | (Hg & ->)]];
      destruct (try_get_tokens_per_fetch _ _ _ _ _ _ _ Hg held) as [Ht Hf];
      try exact Ht.
    apply tokens_per_fetch_app. split; [exact Ht |]. rewrite Hf.
    destruct (negb (truthy resp)).
    + unfold log in Hk. rewrite emit_bind in Hk.
      destruct (fetch_all server fuel t0 urls answers _) as [s3 r3] eqn:Hrec.
      inversion Hk; subst. cbn [tokens_per_fetch]. eapply IH. exact Hrec.
    + eapply IH. exact Hk.
Qed.

(** C4, as the code has it.  In every run of [main], each GET presents
    the token returned by the most recent login answered 200 since the
    fetch that sends the GET was entered, and, as long as this fetch has
    not logged in again, the token returned by the initial login of
    [main]: every fetch starts again from this snapshot, whatever the
    fetches before it obtained. *)
Theorem get_presents_token_of_its_fetch :
  forall server fuel h,
    tokens_per_fetch None None (fst (main server fuel h)).
Proof.
  intros server fuel h. destruct (main server fuel h) as [s r] eqn:Hrun.
  cbn [fst]. unfold main in Hrun. apply bind_inv in Hrun.
  assert (Hlogin : forall s0 r0, try_login server fuel h = (s0, r0) ->
            tokens_per_fetch None None s0
            /\ forall t0, r0 = Done t0 -> fetch_scan None None s0 = (Some t0, Some t0)).
  { intros s0 r0 Hl. destruct (try_login_quiet _ _ _ _ _ Hl) as [Hg [_ [Hc _]]].
    destruct (tokens_per_fetch_inside s0 Hc None None) as [Hs Ht].
    split; [apply Ht, tokens_follow_no_gets, Hg |].
    intros t0 ->. rewrite Hs.
    destruct (try_login_run _ _ _ _ _ Hl) as [s0' [-> Hlr]].
    cbn [scan]. rewrite (login_run_scan _ _ Hlr). reflexivity. }
  destruct Hrun as [(s0 & t0 & s1 & Hl & Hk & ->) | [(e & Hl & ->) | (Hl & ->)]];
    destruct (Hlogin _ _ Hl) as [Ht0 Hscan]; try exact Ht0.
  apply tokens_per_fetch_app. split; [exact Ht0 |].
  rewrite (Hscan t0 eq_refl). cbn [fst snd].
  apply bind_inv in Hk.
  destruct Hk as [(s2 & answers & s3 & Hf & Hlog & ->) | [(e & Hf & ->) | (Hf & ->)]];
    try (eapply fetch_all_tokens_per_fetch; exact Hf).
  apply tokens_per_fetch_app. split; [eapply fetch_all_tokens_per_fetch; exact Hf |].
  destruct (log_answers_quiet answers ((h ++ s0) ++ s2)) as [Hg' [Hc' _]].
  rewrite Hlog in Hg', Hc'. cbn [fst] in Hg', Hc'.
  destruct (tokens_per_fetch_inside s3 Hc'
              (fst (fetch_scan (Some t0) (Some t0) s2))
              (snd (fetch_scan (Some t0) (Some t0) s2))) as [_ Ht].
  apply Ht, tokens_follow_no_gets, Hg'.
Qed.

(** What the statement rules out: a fetch that goes back to the snapshot
    T1 after it logged in again and obtained T2, and a fetch that
    presents null although the snapshot is T1. *)
Example tokens_per_fetch_rejects_going_back :
  ~ tokens_per_fetch None None
      [Call CallLogin;
       Http (POST login_url creds) (ok (PDict [("access_token", PStr "T1")]));
       Call (CallGet secret1 (PStr "T1"));
       Http (GET secret1 (PStr "T1")) (refuse 401);
       warn_401; Call CallLogin;
       Http (POST login_url creds) (ok (PDict [("access_token", PStr "T2")]));
       Http (GET secret1 (PStr "T2")) (refuse 500);
       Http (GET secret1 (PStr "T1")) (refuse 500)].
Proof. cbn. intros [_ [_ [H _]]]. discriminate. Qed.

Example tokens_per_fetch_rejects_null_after_failed_relogin :
  ~ tokens_per_fetch None None
      [Call CallLogin;
       Http (POST login_url creds) (ok (PDict [("access_token", PStr "T1")]));
       Call (CallGet secret1 (PStr "T1"));
       Http (GET secret1 (PStr "T1")) (refuse 401);
       warn_401; Call CallLogin;
       Http (POST login_url creds) (ok (PDict []));
       error_no_token;
       Call (CallGet secret2 (PStr "T1"));
       Http (GET secret2 PNone) (refuse 401)].
Proof. cbn. intros [_ [H _]]. discriminate. Qed.

(** ** A status that is neither 200 nor 401 *)




(** ** The requests and the output of [main] *)

Lemma fetch_run_posts url token s r :
  fetch_run url token s r ->
  Forall (fun p => fst (fst p) = login_url /\ snd (fst p) = creds) (posts s).
Proof.
  assert (Hlogin : forall sl rl, login_run sl rl ->
            Forall (fun p => fst (fst p) = login_url /\ snd (fst p) = creds) (posts sl)).
  { intros sl rl Hlr. apply Forall_forall. intros [[u j] rp] Hin.
    exact (login_run_posts _ _ Hlr _ _ _ Hin). }
  induction 1; cbn [posts warn_401]; auto;
    autorewrite with trace; cbn [posts error_no_token]; rewrite ?app_nil_r;
    try apply Forall_app; eauto.
Qed.

Lemma try_get_segment server fuel url token h s r :
  try_get server fuel url token h = (s, r) ->
  output s = [] /\ missed s = []
  /\ get_urls s = repeat url (List.length (gets s))
  /\ Forall (fun p => fst (fst p) = login_url /\ snd (fst p) = creds) (posts s).
Proof.
  intros Hrun. destruct (try_get_run _ _ _ _ _ _ _ Hrun) as [s' [-> Hfr]].
  destruct (fetch_run_no_output _ _ _ _ Hfr) as [Ho Hm].
  cbn [output missed gets posts]. unfold get_urls. cbn [gets].
  repeat split; auto.
  - exact (fetch_run_get_urls _ _ _ _ Hfr).
  - exact (fetch_run_posts _ _ _ _ Hfr).
Qed.

Lemma fetch_run_answers url token s v :
  fetch_run url token s (Done v) ->
  filter truthy (answers_200 s) = if truthy v then [v] else [].
Proof.
  intros H. remember (Done v) as r eqn:Hr. revert Hr.
  induction H; intros Hr; try discriminate; cbn [answers_200 warn_401].
  - rewrite H, Z.eqb_refl, Hr. cbn [filter]. destruct (truthy v); reflexivity.
  - apply Z.eqb_neq in H. rewrite H. auto.
  - inversion Hr; subst. rewrite H. cbn [Z.eqb Pos.eqb].
    destruct (login_run_silent _ _ H0) as [_ [_ [Ha _]]].
    autorewrite with trace. rewrite Ha. reflexivity.
  - rewrite H. cbn [Z.eqb Pos.eqb].
    destruct (login_run_silent _ _ H0) as [_ [_ [Ha _]]].
    autorewrite with trace. rewrite Ha. cbn [app]. auto.
Qed.

(** What the loop of [main] sends, logs and returns. *)
Lemma fetch_all_run server fuel token urls :
  forall answers h s r,
    fetch_all server fuel token urls answers h = (s, r) ->
    output s = []
    /\ (exists ns, get_urls s
                   = flat_map (fun un => repeat (fst un) (snd un)) (combine urls ns)
                   /\ List.length ns = List.length urls)
    /\ Forall (fun p => fst (fst p) = login_url /\ snd (fst p) = creds) (posts s)
    /\ (forall res, r = Done res ->
          res = answers ++ filter truthy (answers_200 s)
          /\ (List.length res + List.length (missed s)
              = List.length answers + List.length urls)%nat).
Proof.
  induction urls as [| url urls IH]; intros answers h s r Hrun.
  - inversion Hrun; subst. cbn. split; [| split; [| split]]; auto.
    + exists []. auto.
    + intros res Hres. inversion Hres; subst. rewrite app_nil_r. auto.
  - rewrite fetch_all_cons in Hrun. apply bind_inv in Hrun.
    assert (Hzero : forall n, repeat url n
              = flat_map (fun un => repeat (fst un) (snd un))
                  (combine (url :: urls) (n :: repeat O (List.length urls)))).
    { intros n. cbn [combine flat_map fst snd].
      assert (Hnil : flat_map (fun un : string * nat => repeat (fst un) (snd un))
                       (combine urls (repeat O (List.length urls))) = []).
      { clear. induction urls as [| u urls IHu]; cbn; auto. }
      rewrite Hnil, app_nil_r. reflexivity. }
    destruct Hrun as [(s1 & resp & s2 & Hg & Hk & ->) | [(e & Hg & ->) | (Hg & ->)]];
      destruct (try_get_segment _ _ _ _ _ _ _ Hg) as [Ho [Hm [Hu Hp]]].
    2, 3: (split; [exact Ho | split; [| split; [exact Hp | discriminate]]];
           exists (List.length (gets s) :: repeat O (List.length urls));
           split; [rewrite Hu; apply Hzero | cbn; rewrite repeat_length; reflexivity]).
    destruct (try_get_run _ _ _ _ _ _ _ Hg) as [s1' [Hs1 Hfr]].
    pose proof (fetch_run_answers _ _ _ _ Hfr) as Hans.
    assert (Hans1 : filter truthy (answers_200 s1) = if truthy resp then [resp] else []).
    { rewrite Hs1. exact Hans. }
    destruct (truthy resp) eqn:Ht; cbn [negb] in Hk.
    + destruct (IH _ _ _ _ Hk) as [Ho2 [[ns [Hu2 Hns]] [Hp2 Hd]]].
      autorewrite with trace. rewrite Ho, Ho2, Hm, Hu, Hu2.
      split; [reflexivity | split; [| split]].
      * exists (List.length (gets s1) :: ns). cbn. auto.
      * apply Forall_app. auto.
      * intros res Hres. destruct (Hd res Hres) as [Hres' Hlen]. split.
        -- rewrite Hres', filter_app, Hans1, <- app_assoc. reflexivity.
        -- rewrite length_app in Hlen. cbn in *. lia.
    + unfold log in Hk. rewrite emit_bind in Hk.
      destruct (fetch_all server fuel token urls answers _) as [s3 r3] eqn:Hrec.
      inversion Hk; subst s2 r. clear Hk.
      destruct (IH _ _ _ _ Hrec) as [Ho2 [[ns [Hu2 Hns]] [Hp2 Hd]]].
      change (Log ERROR (PStr "Error getting secret at %s") [PStr url] :: s3)
        with ([Log ERROR (PStr "Error getting secret at %s") [PStr url]] ++ s3).
      autorewrite with trace. rewrite Ho, Ho2, Hm, Hu, Hu2.
      cbn [output missed get_urls gets posts answers_200 map app
             String.eqb Ascii.eqb Bool.eqb].
      split; [reflexivity | split; [| split]].
      * exists (List.length (gets s1) :: ns). cbn. auto.
      * apply Forall_app. auto.
      * intros res Hres. destruct (Hd res Hres) as [Hres' Hlen]. split.
        -- rewrite Hres', filter_app, Hans1. reflexivity.
        -- cbn in *. lia.
Qed.

(** How a run of [main] is made of a login, the fetches and the final
    log lines. *)
Lemma main_run server fuel h s r :
  main server fuel h = (s, r) ->
  exists s0 r0,
    try_login server fuel h = (s0, r0)
    /\ ((exists token s1 r1,
           r0 = Done token
           /\ fetch_all server fuel token secret_urls [] (h ++ s0) = (s1, r1)
           /\ ((exists answers, r1 = Done answers
                                /\ s = s0 ++ s1 ++ map (fun a => Log INFO a []) answers
                                /\ r = Done tt)
               \/ ((forall answers, r1 <> Done answers)
                   /\ s = s0 ++ s1 /\ output s = [] /\ r <> Done tt)))
        \/ ((forall token, r0 <> Done token) /\ s = s0 /\ r <> Done tt)).
Proof.
  assert (Hlog : forall answers h',
            log_answers answers h' = (map (fun a => Log INFO a []) answers, Done tt)).
  { induction answers as [| a answers IH]; intros h'; cbn [log_answers map].
    - reflexivity.
    - rewrite emit_bind, IH. reflexivity. }
  intros Hrun. unfold main in Hrun. apply bind_inv in Hrun.
  destruct Hrun as [(s0 & token & s1 & Hl & Hk & ->) | [(e & Hl & ->) | (Hl & ->)]].
  - exists s0, (Done token). split; [exact Hl |]. left.
    apply bind_inv in Hk.
    destruct (try_login_quiet _ _ _ _ _ Hl) as [_ [_ [_ [_ Ho0]]]].
    destruct Hk as [(s2 & answers & s3 & Hf & Hla & ->) | [(e & Hf & ->) | (Hf & ->)]].
    + exists token, s2, (Done answers). split; [reflexivity | split; [exact Hf |]].
      left. exists answers. rewrite Hlog in Hla. inversion Hla; subst. auto.
    + exists token, s1, (Raised e). split; [reflexivity | split; [exact Hf |]].
      right. destruct (fetch_all_run _ _ _ _ _ _ _ _ Hf) as [Ho _].
      rewrite output_app, Ho0, Ho. repeat split; auto; discriminate.
    + exists token, s1, OutOfFuel. split; [reflexivity | split; [exact Hf |]].
      right. destruct (fetch_all_run _ _ _ _ _ _ _ _ Hf) as [Ho _].
      rewrite output_app, Ho0, Ho. repeat split; auto; discriminate.
  - exists s, (Raised e). split; [exact Hl |]. right. repeat split; discriminate.
  - exists s, OutOfFuel. split; [exact Hl |]. right. repeat split; discriminate.
Qed.

Lemma output_infos answers : output (map (fun a => Log INFO a []) answers) = answers.
Proof. induction answers as [| a answers IH]; cbn; rewrite ?IH; reflexivity. Qed.

Lemma infos_silent answers :
  gets (map (fun a => Log INFO a []) answers) = []
  /\ posts (map (fun a => Log INFO a []) answers) = []
  /\ answers_200 (map (fun a => Log INFO a []) answers) = []
  /\ missed (map (fun a => Log INFO a []) answers) = [].
Proof. induction answers as [| a answers IH]; cbn; auto. Qed.

(** X7. Every run of [main] sends nothing but logins, each with the
    guest credentials to the login URL, and GETs for the three resources
    in their order: all the GETs for the first resource, then all those
    for the second, then all those for the third. *)
Theorem main_requests_in_order :
  forall server fuel h,
    Forall (fun p => fst (fst p) = login_url /\ snd (fst p) = creds)
           (posts (fst (main server fuel h)))
    /\ exists n1 n2 n3,
         get_urls (fst (main server fuel h))
         = repeat "http://localhost:5000/api/secret1"%string n1
           ++ repeat "http://localhost:5000/api/secret2"%string n2
           ++ repeat "http://localhost:5000/api/secret3"%string n3.
Proof.
  intros server fuel h. destruct (main server fuel h) as [s r] eqn:Hrun. cbn [fst].
  destruct (main_run _ _ _ _ _ Hrun) as [s0 [r0 [Hl Hcases]]].
  destruct (try_login_run _ _ _ _ _ Hl) as [s0' [Hs0 Hlr]].
  assert (Hp0 : Forall (fun p => fst (fst p) = login_url /\ snd (fst p) = creds)
                  (posts s0)).
  { rewrite Hs0. cbn [posts]. apply Forall_forall. intros [[u j] rp] Hin.
    exact (login_run_posts _ _ Hlr _ _ _ Hin). }
  assert (Hu0 : get_urls s0 = []).
  { rewrite Hs0. unfold get_urls. cbn [gets].
    destruct (login_run_quiet _ _ Hlr) as [Hg _]. rewrite Hg. reflexivity. }
  assert (Hurls : forall s1 r1 token,
            fetch_all server fuel token secret_urls [] (h ++ s0) = (s1, r1) ->
            exists n1 n2 n3,
              get_urls s1 = repeat "http://localhost:5000/api/secret1"%string n1
                            ++ repeat "http://localhost:5000/api/secret2"%string n2
                            ++ repeat "http://localhost:5000/api/secret3"%string n3).
  { intros s1 r1 token Hf.
    destruct (fetch_all_run _ _ _ _ _ _ _ _ Hf) as [_ [[ns [Hu Hns]] _]].
    destruct ns as [| n1 [| n2 [| n3 [| n4 ns]]]]; try discriminate.
    exists n1, n2, n3. rewrite Hu. cbn. rewrite app_nil_r. reflexivity. }
  destruct Hcases as [(token & s1 & r1 & Hr0 & Hf & Hrest) | (Hr0 & -> & Hr)].
  - destruct (fetch_all_run _ _ _ _ _ _ _ _ Hf) as [_ [_ [Hp1 _]]].
    destruct (Hurls _ _ _ Hf) as [n1 [n2 [n3 Hu1]]].
    destruct Hrest as [(answers & Hr1 & -> & Hr) | (Hr1 & -> & _)].
    + destruct (infos_silent answers) as [Hg [Hp _]].
      split.
      * autorewrite with trace. rewrite Hp, app_nil_r. apply Forall_app. auto.
      * exists n1, n2, n3. autorewrite with trace. rewrite Hu0, Hu1.
        unfold get_urls at 1. rewrite Hg. cbn [map app]. rewrite app_nil_r. reflexivity.
    + split.
      * autorewrite with trace. apply Forall_app. auto.
      * exists n1, n2, n3. autorewrite with trace. rewrite Hu0, Hu1. reflexivity.
  - split; [exact Hp0 |]. exists O, O, O. rewrite Hu0. reflexivity.
Qed.

(** X8. A run of [main] that does not return, because an exception
    leaves it or because it never ends, outputs nothing, whatever
    answers its fetches had obtained. *)
Theorem main_outputs_only_when_it_returns :
  forall server fuel h,
    snd (main server fuel h) <> Done tt ->
    output (fst (main server fuel h)) = [].
Proof.
  intros server fuel h. destruct (main server fuel h) as [s r] eqn:Hrun.
  cbn [fst snd]. intros Hr.
  destruct (main_run _ _ _ _ _ Hrun) as [s0 [r0 [Hl Hcases]]].
  destruct (try_login_quiet _ _ _ _ _ Hl) as [_ [_ [_ [_ Ho0]]]].
  destruct Hcases as [(token & s1 & r1 & Hr0 & Hf & Hrest) | (Hr0 & -> & _)];
    [| exact Ho0].
  destruct Hrest as [(answers & Hr1 & -> & Hr') | (Hr1 & -> & Ho & _)];
    [contradiction | exact Ho].
Qed.

(** X9. When [main] returns, its output is the [answer] fields of the
    GETs that were answered 200, in the order of the GETs, without those
    that test false; and every resource is accounted for: the number of
    output lines and the number of lines that report a missing resource
    add up to three. *)
Theorem main_outputs_the_truthy_answers :
  forall server fuel h s,
    main server fuel h = (s, Done tt) ->
    output s = filter truthy (answers_200 s)
    /\ (List.length (output s) + List.length (missed s) = 3)%nat.
Proof.
  intros server fuel h s Hrun.
  destruct (main_run _ _ _ _ _ Hrun) as [s0 [r0 [Hl Hcases]]].
  destruct (try_login_run _ _ _ _ _ Hl) as [s0' [Hs0 Hlr]].
  destruct (login_run_quiet _ _ Hlr) as [_ [_ [_ [_ Ho0]]]].
  destruct (login_run_silent _ _ Hlr) as [_ [_ [Ha0 [Hm0 _]]]].
  destruct Hcases as [(token & s1 & r1 & Hr0 & Hf & Hrest) | (_ & _ & Hr)];
    [| contradiction Hr; reflexivity].
  destruct Hrest as [(answers & Hr1 & -> & _) | (_ & _ & _ & Hr)];
    [| contradiction Hr; reflexivity].
  destruct (fetch_all_run _ _ _ _ _ _ _ _ Hf) as [Ho1 [_ [_ Hd]]].
  destruct (Hd answers Hr1) as [Hans Hlen].
  destruct (infos_silent answers) as [_ [_ [Ha2 Hm2]]].
  autorewrite with trace.
  rewrite Hs0. cbn [output answers_200 missed].
  rewrite Ho0, Ha0, Hm0, Ho1, Ha2, Hm2, output_infos, !app_nil_r. cbn [app].
  split; [exact Hans |]. cbn in Hlen. exact Hlen.
Qed.

(** X10. No run of [main] sends a GET before a login was answered 200:
    every GET of the trace comes after such a login. *)
Theorem main_logs_in_before_fetching :
  forall server fuel h s r pre u t rp post,
    main server fuel h = (s, r) ->
    s = pre ++ Http (GET u t) rp :: post ->
    exists pre1 resp pre2,
      pre = pre1 ++ Http (POST login_url creds) (Some resp) :: pre2
      /\ status resp = 200.
Proof.
  intros server fuel h s r pre u t rp post Hrun Heq.
  destruct (main_run _ _ _ _ _ Hrun) as [s0 [r0 [Hl Hcases]]].
  destruct (try_login_quiet _ _ _ _ _ Hl) as [Hg0 _].
  destruct Hcases as [(token & s1 & r1 & Hr0 & Hf & Hrest) | (_ & -> & _)].
  - subst r0. destruct (try_login_run _ _ _ _ _ Hl) as [s0' [Hs0 Hlr]].
    destruct (login_run_done _ _ Hlr) as [p [resp [d [Hs0' [H200 _]]]]].
    assert (Hsplit : exists tail, s = s0 ++ tail).
    { destruct Hrest as [(answers & _ & -> & _) | (_ & -> & _)]; eauto. }
    destruct Hsplit as [tail Hs]. rewrite Hs in Heq.
    apply app_eq_mid in Heq.
    destruct Heq as [[post' [Hin _]] | [pre' [-> _]]].
    + rewrite Hin in Hg0. destruct (gets_mid _ _ _ _ _ Hg0).
    + exists (Call CallLogin :: p), resp, pre'. split; [| exact H200].
      rewrite Hs0, Hs0'. cbn [app]. rewrite <- app_assoc. reflexivity.
  - rewrite Heq in Hg0. destruct (gets_mid _ _ _ _ _ Hg0).
Qed.

(** ** Exceptions are not caught *)

Lemma fatal_field_result key resp x :
  status resp = 200 -> fatal (Http (POST login_url creds) (Some resp)) = Some x ->
  field_result key resp = Raised x.
Proof.
  intros Hst. cbn [fatal]. rewrite Hst. cbn [Z.eqb Pos.eqb]. unfold field_result.
  destruct (payload resp) as [[ | b | z | f | str | l | d] |]; intros H;
    inversion H; reflexivity.
Qed.

Lemma fatal_not_200 rq resp x :
  status resp <> 200 -> fatal (Http rq (Some resp)) <> Some x.
Proof.
  intros Hst. cbn [fatal]. apply Z.eqb_neq in Hst. rewrite Hst. discriminate.
Qed.

Lemma login_run_fail_fast s r :
  login_run s r ->
  forall pre e post x,
    s = pre ++ e :: post -> fatal e = Some x -> post = [] /\ r = Raised x.
Proof.
  induction 1; intros pre ev post x Heq Hf.
  - destruct pre; discriminate.
  - destruct pre as [| e1 [| e2 pre]]; try discriminate.
    inversion Heq; subst. inversion Hf. auto.
  - destruct pre as [| e1 [| e2 pre]]; try discriminate.
    inversion Heq; subst. split; [reflexivity |].
    apply fatal_field_result; assumption.
  - destruct pre as [| e1 pre].
    + inversion Heq; subst. destruct (fatal_not_200 _ _ x H Hf).
    + inversion Heq; subst. eapply IHlogin_run; eauto.
Qed.

Lemma fetch_run_fail_fast url token s r :
  fetch_run url token s r ->
  forall pre e post x,
    s = pre ++ e :: post -> fatal e = Some x -> post = [] /\ r = Raised x.
Proof.
  assert (H401 : forall rq resp x, status resp = 401 -> fatal (Http rq (Some resp)) <> Some x).
  { intros rq resp x Hst. apply fatal_not_200. rewrite Hst. discriminate. }
  induction 1; intros pre ev post x Heq Hf.
  - destruct pre; discriminate.
  - destruct pre as [| e1 [| e2 pre]]; try discriminate.
    inversion Heq; subst. inversion Hf. auto.
  - destruct pre as [| e1 [| e2 pre]]; try discriminate.
    inversion Heq; subst. split; [reflexivity |].
    apply (fatal_field_result "answer" resp x H).
    cbn [fatal] in Hf |- *. exact Hf.
  - destruct pre as [| e1 pre].
    + inversion Heq; subst. destruct (fatal_not_200 _ _ x H Hf).
    + inversion Heq; subst. eapply IHfetch_run; eauto.
  - destruct pre as [| e1 [| e2 [| e3 pre]]]; inversion Heq; subst;
      try discriminate; try (destruct (H401 _ _ x H Hf)).
    destruct (login_run_fail_fast _ _ H0 _ _ _ _ eq_refl Hf) as [_ Hr]. discriminate.
  - destruct pre as [| e1 [| e2 [| e3 pre]]]; inversion Heq; subst;
      try discriminate; try (destruct (H401 _ _ x H Hf)).
    destruct (login_run_fail_fast _ _ H0 _ _ _ _ eq_refl Hf) as [-> Hr].
    inversion Hr; subst. auto.
  - destruct pre as [| e1 [| e2 [| e3 pre]]].
    1-3: inversion Heq; subst; try discriminate; destruct (H401 _ _ x H Hf).
    inversion Heq as [[He1 He2 He3 Hrest]]. subst e1 e2 e3.
    apply app_eq_mid in Hrest.
    destruct Hrest as [[post' [Hsl _]] | [pre' [_ Htail]]].
    + destruct (login_run_fail_fast _ _ H0 _ _ _ _ Hsl Hf) as [_ Hr]. discriminate.
    + destruct pre' as [| e1 [| e2 pre']]; try discriminate.
      inversion Htail; subst. discriminate.
  - destruct pre as [| e1 [| e2 [| e3 pre]]].
    1-3: inversion Heq; subst; try discriminate; destruct (H401 _ _ x H Hf).
    inversion Heq as [[He1 He2 He3 Hrest]]. subst e1 e2 e3.
    apply app_eq_mid in Hrest.
    destruct Hrest as [[post' [Hsl _]] | [pre' [_ Htail]]].
    + destruct (login_run_fail_fast _ _ H0 _ _ _ _ Hsl Hf) as [_ Hr]. discriminate.
    + eapply IHfetch_run; eauto.
Qed.

Lemma fail_fast_bind {A B} (m : M A) (k : A -> M B) :
  fail_fast m -> (forall a, fail_fast (k a)) -> fail_fast (bind m k).
Proof.
  intros Hm Hk h s r pre e post x Hrun Heq Hf. apply bind_inv in Hrun.
  destruct Hrun as [(s1 & a & s2 & H1 & H2 & ->) | [(e' & H1 & ->) | (H1 & ->)]].
  - apply app_eq_mid in Heq.
    destruct Heq as [[post' [Hs1 _]] | [pre' [_ Hs2]]].
    + destruct (Hm _ _ _ _ _ _ _ H1 Hs1 Hf) as [_ Hr]. discriminate.
    + exact (Hk a _ _ _ _ _ _ _ H2 Hs2 Hf).
  - destruct (Hm _ _ _ _ _ _ _ H1 Heq Hf) as [Hp Hr]. inversion Hr; subst. auto.
  - destruct (Hm _ _ _ _ _ _ _ H1 Heq Hf) as [_ Hr]. discriminate.
Qed.

Lemma fail_fast_log {A} (ev : event) (a : A) :
  fatal ev = None -> fail_fast (fun _ => ([ev], Done a)).
Proof.
  intros Hev h s r pre e post x Hrun Heq Hf. injection Hrun as Hs Hr.
  rewrite <- Hs in Heq.
  destruct pre as [| e1 [| e2 pre]]; try discriminate.
  inversion Heq; subst. rewrite Hev in Hf. discriminate.
Qed.

Lemma fail_fast_ret {A} (a : A) : fail_fast (ret a).
Proof.
  intros h s r pre e post x Hrun Heq Hf. injection Hrun as Hs Hr.
  rewrite <- Hs in Heq. destruct pre; discriminate.
Qed.

Lemma try_login_fail_fast server fuel : fail_fast (try_login server fuel).
Proof.
  unfold try_login. apply fail_fast_bind.
  - apply (fail_fast_log (Call CallLogin) tt). reflexivity.
  - intros _ h s r pre e post x Hrun. apply login_run_fail_fast.
    eapply login_loop_run. exact Hrun.
Qed.

Lemma try_get_fail_fast server fuel url token :
  fail_fast (try_get server fuel url token).
Proof.
  unfold try_get. apply fail_fast_bind.
  - apply (fail_fast_log (Call (CallGet url token)) tt). reflexivity.
  - intros _ h s r pre e post x Hrun. apply (fetch_run_fail_fast url token).
    eapply get_loop_run. exact Hrun.
Qed.

Lemma fetch_all_fail_fast server fuel token urls :
  forall answers, fail_fast (fetch_all server fuel token urls answers).
Proof.
  induction urls as [| url urls IH]; intros answers.
  - apply fail_fast_ret.
  - rewrite fetch_all_cons. apply fail_fast_bind; [apply try_get_fail_fast |].
    intros resp. destruct (negb (truthy resp)); [| apply IH].
    apply fail_fast_bind; [| intros _; apply IH].
    apply (fail_fast_log _ tt). reflexivity.
Qed.

Lemma log_answers_fail_fast answers : fail_fast (log_answers answers).
Proof.
  induction answers as [| a answers IH]; cbn [log_answers].
  - apply fail_fast_ret.
  - apply fail_fast_bind; [| intros _; exact IH].
    apply (fail_fast_log _ tt). reflexivity.
Qed.

(** X11. Nothing is caught or retried: in a run of [try_login], of
    [try_get] or of [main], an exchange whose transport fails, or that
    is answered 200 with a body that is not a JSON object, is the last
    event of the run, and the run ends with the exception of that
    exchange. *)
Theorem exceptions_end_the_run :
  forall server fuel,
    fail_fast (try_login server fuel)
    /\ (forall url token, fail_fast (try_get server fuel url token))
    /\ fail_fast (main server fuel).
Proof.
  intros server fuel. split; [| split].
  - apply try_login_fail_fast.
  - intros url token. apply try_get_fail_fast.
  - unfold main. apply fail_fast_bind; [apply try_login_fail_fast |].
    intros token. apply fail_fast_bind; [apply fetch_all_fail_fast |].
    intros answers. apply log_answers_fail_fast.
Qed.

(** ** The resolver of the test suite *)

Lemma key_eqb_eq a b : FakeResolver.key_eqb a b = true <-> a = b.
Proof.
  destruct a as [h1 p1], b as [h2 p2]. unfold FakeResolver.key_eqb. cbn [fst snd].
  rewrite andb_true_iff, String.eqb_eq, Z.eqb_eq.
  split; [intros [-> ->]; reflexivity | intros H; inversion H; auto].
Qed.

Lemma key_eqb_refl a : FakeResolver.key_eqb a a = true.
Proof. apply key_eqb_eq. reflexivity. Qed.

Lemma getitem_setitem_same d k v :
  FakeResolver.getitem (FakeResolver.setitem d k v) k = Some v.
Proof.
  induction d as [| [k' v'] d IH]; cbn.
  - rewrite key_eqb_refl. reflexivity.
  - destruct (FakeResolver.key_eqb k' k) eqn:Hk; cbn; rewrite Hk; auto.
Qed.

Lemma getitem_setitem_other d k v k' :
  FakeResolver.key_eqb k k' = false ->
  FakeResolver.getitem (FakeResolver.setitem d k v) k' = FakeResolver.getitem d k'.
Proof.
  intros Hne. induction d as [| [k0 v0] d IH]; cbn.
  - rewrite Hne. reflexivity.
  - destruct (FakeResolver.key_eqb k0 k) eqn:Hk; cbn.
    + apply key_eqb_eq in Hk. subst k0. rewrite Hne. reflexivity.
    + rewrite IH. reflexivity.
Qed.

Lemma after_adds_snoc calls c :
  FakeResolver.after_adds (calls ++ [c])
  = FakeResolver.add (FakeResolver.after_adds calls) (fst (fst c)) (snd (fst c)) (snd c).
Proof. unfold FakeResolver.after_adds. rewrite fold_left_app. reflexivity. Qed.

Lemma getitem_after_adds_not_added calls k :
  FakeResolver.added calls k = false ->
  FakeResolver.getitem (FakeResolver.after_adds calls) k = None.
Proof.
  induction calls as [| c calls IH] using rev_ind; intros Hn.
  - reflexivity.
  - unfold FakeResolver.added in *. rewrite existsb_app in Hn.
    apply orb_false_iff in Hn. destruct Hn as [Hn Hc]. cbn in Hc.
    rewrite orb_false_r in Hc. rewrite after_adds_snoc. unfold FakeResolver.add.
    destruct c as [[hst prt] tgt]. cbn [fst snd] in *.
    rewrite getitem_setitem_other; auto.
Qed.

Lemma getitem_after_adds_later calls1 calls2 k v :
  FakeResolver.added calls2 k = false ->
  FakeResolver.getitem
    (FakeResolver.after_adds (calls1 ++ (fst k, snd k, v) :: calls2)) k = Some v.
Proof.
  induction calls2 as [| c calls2 IH] using rev_ind; intros Hn.
  - rewrite after_adds_snoc. unfold FakeResolver.add. cbn [fst snd].
    destruct k as [hst prt]. apply getitem_setitem_same.
  - unfold FakeResolver.added in *. rewrite existsb_app in Hn.
    apply orb_false_iff in Hn. destruct Hn as [Hn Hc]. cbn in Hc.
    rewrite orb_false_r in Hc.
    change (calls1 ++ (fst k, snd k, v) :: calls2 ++ [c])
      with (calls1 ++ ((fst k, snd k, v) :: calls2) ++ [c]).
    rewrite app_assoc, after_adds_snoc. unfold FakeResolver.add.
    destruct c as [[hst prt] tgt]. cbn [fst snd] in *.
    rewrite getitem_setitem_other; auto.
Qed.

(** X12. After any sequence of calls of [add], [resolve] answers for an
    address with the one entry that carries the target port of the most
    recent [add] for that host and port, whatever was added for other
    addresses before or after; and for an address that no [add] named,
    it raises [OSError] with the message that names the host. *)
Theorem FakeResolver_resolves_the_latest_add :
  forall AI_NUMERICHOST calls1 calls2 host port target_port,
    FakeResolver.added calls2 (host, port) = false ->
    FakeResolver.resolve AI_NUMERICHOST
      (FakeResolver.after_adds (calls1 ++ (host, port, target_port) :: calls2))
      host port
    = FakeResolver.Resolved
        [FakeResolver.mkAddrinfo host "127.0.0.1" target_port 0 AI_NUMERICHOST]
    /\ FakeResolver.resolve AI_NUMERICHOST (FakeResolver.after_adds calls2) host port
       = FakeResolver.OSError ("No test server known for " ++ host)%string.
Proof.
  intros AI calls1 calls2 hst prt tgt Hn. unfold FakeResolver.resolve. split.
  - pose proof (getitem_after_adds_later calls1 calls2 (hst, prt) tgt Hn) as Hget.
    cbn [fst snd] in Hget. rewrite Hget. reflexivity.
  - rewrite (getitem_after_adds_not_added calls2 (hst, prt) Hn). reflexivity.
Qed.

(** ** A login that succeeds late *)

Lemma login_loop_first_200 server fails :
  forall h resp d fuel,
    logins_answered server h (fails ++ [resp]) ->
    Forall (fun r => status r <> 200) fails ->
    status resp = 200 -> payload resp = Some (PDict d) ->
    (List.length fails < fuel)%nat ->
    login_loop server fuel 0 h
    = (map (fun r => Http (POST login_url creds) (Some r)) (fails ++ [resp]),
       Done (dict_get d "access_token")).
Proof.
  induction fails as [| r fails IH]; intros h resp d fuel Hans Hfails H200 Hpay Hfuel;
    (destruct fuel as [| fuel]; [cbn in Hfuel; lia |]);
    rewrite login_loop_S; cbn [app logins_answered] in Hans; destruct Hans as [Hs Hrest].
  - unfold bind at 1, session_post. rewrite (send_some _ _ _ _ Hs).
    rewrite H200. cbn [Z.eqb Pos.eqb]. rewrite read_field.
    unfold field_result. rewrite Hpay. reflexivity.
  - inversion Hfails as [| r' fails' Hr Hfails']; subst.
    apply (bind_done _ _ h [Http (POST login_url creds) (Some r)] r).
    + apply send_some. exact Hs.
    + apply Z.eqb_neq in Hr. rewrite Hr.
      apply IH; auto. cbn in Hfuel. lia.
Qed.

(** X13. [try_login] returns as soon as a login is answered 200 with an
    object, after any number of logins answered otherwise, also more
    than [MAX_RETRIES] of them: it has then sent one POST for each
    answer and returns the [access_token] field of the last one. *)
Theorem try_login_returns_at_first_200 :
  forall server h fails resp d fuel,
    logins_answered server (h ++ [Call CallLogin]) (fails ++ [resp]) ->
    Forall (fun r => status r <> 200) fails ->
    status resp = 200 -> payload resp = Some (PDict d) ->
    (List.length fails < fuel)%nat ->
    try_login server fuel h
    = (Call CallLogin
         :: map (fun r => Http (POST login_url creds) (Some r)) (fails ++ [resp]),
       Done (dict_get d "access_token")).
Proof.
  intros server h fails resp d fuel Hans Hfails H200 Hpay Hfuel.
  unfold try_login. rewrite emit_bind.
  rewrite (login_loop_first_200 server fails _ resp d fuel Hans Hfails H200 Hpay Hfuel).
  reflexivity.
Qed.

Lemma try_login_returns_at_first_200_witness :
  (MAX_RETRIES < 6)
  /\ try_login srv_slow 7 []
     = (Call CallLogin
          :: map (fun r => Http (POST login_url creds) (Some r))
               (repeat (mkResponse 503 (Some (PDict []))) 6
                  ++ [mkResponse 200 (Some (PDict [("access_token", PStr "T1")]))]),
        Done (dict_get [("access_token", PStr "T1")] "access_token")).
Proof.
  split; [reflexivity |].
  apply (try_login_returns_at_first_200 srv_slow []
           (repeat (mkResponse 503 (Some (PDict []))) 6)
           (mkResponse 200 (Some (PDict [("access_token", PStr "T1")])))
           [("access_token", PStr "T1")] 7).
  - cbn. repeat split; reflexivity.
  - cbn. repeat constructor; discriminate.
  - reflexivity.
  - reflexivity.
  - cbn. lia.
Defined.

(** ** The further theorems at concrete servers *)

Lemma try_get_returns_answer_on_200_witness :
  try_get srv_open 1 secret1 (PStr "T1") logged_in_T1
  = ([Call (CallGet secret1 (PStr "T1"))]
       ++ Http (GET secret1 (PStr "T1")) (ok (PDict [("answer", PStr "A1")])) :: [],
     Done (PStr "A1"))
  /\ (@nil event = [] /\ secret1 = secret1
      /\ Done (PStr "A1") = Done (dict_get [("answer", PStr "A1")] "answer")
      /\ (gets [Call (CallGet secret1 (PStr "T1"))] = [] ->
          [Call (CallGet secret1 (PStr "T1"))] = [Call (CallGet secret1 (PStr "T1"))]
          /\ PStr "T1" = PStr "T1")).
Proof.
  split; [reflexivity |].
  exact (try_get_returns_answer_on_200 srv_open 1 secret1 (PStr "T1") logged_in_T1
           _ _ [Call (CallGet secret1 (PStr "T1"))] secret1 (PStr "T1")
           (mkResponse 200 (Some (PDict [("answer", PStr "A1")]))) []
           [("answer", PStr "A1")] eq_refl eq_refl eq_refl eq_refl).
Defined.

Lemma try_get_result_comes_from_last_exchange_witness :
  try_get srv_revoked 2 secret1 (PStr "T1") logged_in_T1
  = ([Call (CallGet secret1 (PStr "T1"));
      Http (GET secret1 (PStr "T1")) (refuse 401);
      warn_401; Call CallLogin;
      Http (POST login_url creds) (ok (PDict []));
      Log ERROR (PStr "Error getting new access token") []],
     Done PNone)
  /\ ((exists pre t resp d,
          [Call (CallGet secret1 (PStr "T1"));
           Http (GET secret1 (PStr "T1")) (refuse 401);
           warn_401; Call CallLogin;
           Http (POST login_url creds) (ok (PDict []));
           Log ERROR (PStr "Error getting new access token") []]
          = pre ++ [Http (GET secret1 t) (Some resp)]
          /\ status resp = 200 /\ payload resp = Some (PDict d)
          /\ PNone = dict_get d "answer")
      \/ (PNone = PNone
          /\ exists pre resp d,
               [Call (CallGet secret1 (PStr "T1"));
                Http (GET secret1 (PStr "T1")) (refuse 401);
                warn_401; Call CallLogin;
                Http (POST login_url creds) (ok (PDict []));
                Log ERROR (PStr "Error getting new access token") []]
               = pre ++ [Http (POST login_url creds) (Some resp);
                         Log ERROR (PStr "Error getting new access token") []]
               /\ status resp = 200 /\ payload resp = Some (PDict d)
               /\ truthy (dict_get d "access_token") = false)).
Proof.
  split; [reflexivity |].
  exact (try_get_result_comes_from_last_exchange srv_revoked 2 secret1 (PStr "T1")
           logged_in_T1 _ PNone eq_refl).
Defined.

Lemma try_login_returns_only_on_200_witness :
  try_login srv_open 1 [] = (logged_in_T1, Done (PStr "T1"))
  /\ exists pre resp d,
       logged_in_T1 = Call CallLogin :: pre ++ [Http (POST login_url creds) (Some resp)]
       /\ status resp = 200 /\ payload resp = Some (PDict d)
       /\ PStr "T1" = dict_get d "access_token"
       /\ Forall (fun e => exists resp', e = Http (POST login_url creds) (Some resp')
                                         /\ status resp' <> 200) pre
       /\ errors logged_in_T1 = [] /\ warnings logged_in_T1 = [].
Proof.
  split; [reflexivity |].
  exact (try_login_returns_only_on_200 srv_open 1 [] logged_in_T1 (PStr "T1") eq_refl).
Defined.


Lemma main_outputs_only_when_it_returns_witness :
  snd (main srv_third_unreachable 1 []) = Raised ClientError
  /\ answers_200 (fst (main srv_third_unreachable 1 [])) = [PStr "A1"; PStr "A2"]
  /\ output (fst (main srv_third_unreachable 1 [])) = [].
Proof.
  split; [reflexivity | split; [reflexivity |]].
  apply (main_outputs_only_when_it_returns srv_third_unreachable 1 []).
  vm_compute. discriminate.
Defined.

Lemma main_outputs_the_truthy_answers_witness :
  snd (main srv_empty_second 1 []) = Done tt
  /\ answers_200 (fst (main srv_empty_second 1 [])) = [PStr "A1"; PStr ""; PStr "A3"]
  /\ output (fst (main srv_empty_second 1 []))
     = filter truthy (answers_200 (fst (main srv_empty_second 1 [])))
  /\ (List.length (output (fst (main srv_empty_second 1 [])))
      + List.length (missed (fst (main srv_empty_second 1 []))) = 3)%nat.
Proof.
  split; [reflexivity | split; [reflexivity |]].
  exact (main_outputs_the_truthy_answers srv_empty_second 1 []
           (fst (main srv_empty_second 1 [])) eq_refl).
Defined.

Lemma main_logs_in_before_fetching_witness :
  fst (main srv_open 1 [])
  = (logged_in_T1 ++ [Call (CallGet secret1 (PStr "T1"))])
      ++ Http (GET secret1 (PStr "T1")) (ok (PDict [("answer", PStr "A1")]))
      :: skipn 4 (fst (main srv_open 1 []))
  /\ exists pre1 resp pre2,
       logged_in_T1 ++ [Call (CallGet secret1 (PStr "T1"))]
       = pre1 ++ Http (POST login_url creds) (Some resp) :: pre2
       /\ status resp = 200.
Proof.
  split; [reflexivity |].
  exact (main_logs_in_before_fetching srv_open 1 [] (fst (main srv_open 1 []))
           (snd (main srv_open 1 []))
           (logged_in_T1 ++ [Call (CallGet secret1 (PStr "T1"))])
           secret1 (PStr "T1") (ok (PDict [("answer", PStr "A1")]))
           (skipn 4 (fst (main srv_open 1 []))) eq_refl eq_refl).
Defined.

Lemma exceptions_end_the_run_witness :
  fst (main srv_third_unreachable 1 [])
  = firstn 7 (fst (main srv_third_unreachable 1 []))
      ++ Http (GET secret3 (PStr "T1")) None :: []
  /\ fatal (Http (GET secret3 (PStr "T1")) None) = Some ClientError
  /\ (@nil event = [] /\ snd (main srv_third_unreachable 1 []) = Raised ClientError).
Proof.
  split; [reflexivity | split; [reflexivity |]].
  destruct (exceptions_end_the_run srv_third_unreachable 1) as [_ [_ Hmain]].
  exact (Hmain [] (fst (main srv_third_unreachable 1 []))
           (snd (main srv_third_unreachable 1 []))
           (firstn 7 (fst (main srv_third_unreachable 1 [])))
           (Http (GET secret3 (PStr "T1")) None) [] ClientError
           eq_refl eq_refl eq_refl).
Defined.

Lemma FakeResolver_resolves_the_latest_add_witness :
  FakeResolver.added [("localhost", 0, 9); ("example.org", 5000, 7)]
    ("localhost", 5000) = false
  /\ FakeResolver.resolve 4
       (FakeResolver.after_adds
          ([("localhost", 5000, 1)]
             ++ ("localhost", 5000, 8080)
             :: [("localhost", 0, 9); ("example.org", 5000, 7)]))
       "localhost" 5000
     = FakeResolver.Resolved [FakeResolver.mkAddrinfo "localhost" "127.0.0.1" 8080 0 4]
  /\ FakeResolver.resolve 4
       (FakeResolver.after_adds [("localhost", 0, 9); ("example.org", 5000, 7)])
       "localhost" 5000
     = FakeResolver.OSError "No test server known for localhost".
Proof.
  split; [reflexivity |].
  exact (FakeResolver_resolves_the_latest_add 4 [("localhost", 5000, 1)]
           [("localhost", 0, 9); ("example.org", 5000, 7)]
           "localhost" 5000 8080 eq_refl).
Defined.
